(** * rag.py: a retrieval-augmented chat script, embedded in Rocq

    [src/rag.py] is a Streamlit script.  Streamlit executes the whole script
    from top to bottom on every user interaction; the only value that
    survives from one execution to the next is [st.session_state], which the
    script uses for [chat_history].  One execution is embedded here as a
    computation in a small state-and-exception monad that also records, in
    order, the calls made to the outside world (libraries, remote service,
    widgets).  The libraries themselves are not part of the script: their
    answers are the fields of a [world] record and every one of them may
    raise.

    Static presentation calls (title, caption, tips, CSS, the chat-box
    wrapper, the back-to-top button, the scroll script, the spinner) and
    [time.sleep] carry no data and are left out of the trace. *)

From Stdlib Require Import String Ascii NArith ZArith Bool Arith Lia.
From Stdlib Require Import List Permutation Sorted.
Import ListNotations.

Set Implicit Arguments.

(** ** Python strings *)

(** A Python [str] is a sequence of Unicode code points. *)
Definition char := N.
Definition str := list char.

(** An ASCII literal of the script. *)
Definition lit (s : string) : str := map N_of_ascii (list_ascii_of_string s).
Arguments lit s%_string.

Definition newline : str := [10%N].

(** The characters [str.strip()] removes (CPython's [_PyUnicode_IsWhitespace]). *)
Definition is_space (c : char) : bool :=
  ((9 <=? c) && (c <=? 13) || (28 <=? c) && (c <=? 32)
   || (c =? 133) || (c =? 160) || (c =? 5760)
   || (8192 <=? c) && (c <=? 8202)
   || (c =? 8232) || (c =? 8233) || (c =? 8239) || (c =? 8287)
   || (c =? 12288))%N.

Fixpoint lstrip (s : str) : str :=
  match s with
  | [] => []
  | c :: t => if is_space c then lstrip t else s
  end.

Definition rstrip (s : str) : str := rev (lstrip (rev s)).

Definition strip (s : str) : str := rstrip (lstrip s).

(** Truth value of a string in a condition: non-empty. *)
Definition truthy (s : str) : bool :=
  match s with [] => false | _ :: _ => true end.

(** [sep.join(parts)] *)
Fixpoint join (sep : str) (parts : list str) : str :=
  match parts with
  | [] => []
  | [p] => p
  | p :: rest => p ++ sep ++ join sep rest
  end.

(** Every non-empty prefix of [s], shortest first, after [acc]. *)
Fixpoint prefixes_from (acc s : str) : list str :=
  match s with
  | [] => []
  | c :: t => (acc ++ [c]) :: prefixes_from (acc ++ [c]) t
  end.

(** ** Session state and the outside world *)

Inductive role := user | assistant.

(** One entry of [st.session_state.chat_history]:
    [{"role": ..., "content": ...}]. *)
Record turn := Turn { turn_role : role; content : str }.

(** [st.session_state]; [None] is "chat_history" not in the session state. *)
Record session_state := Session { chat_history : option (list turn) }.

(** An exception, by class name. *)
Inductive exn := Exception (cls : string).

Definition result (A : Type) : Type := (exn + A)%type.

Definition UploadedFile := list Byte.byte.

(** What the widgets return in one execution of the script. *)
Record inputs := Inputs {
  file_uploaded : option UploadedFile;   (* st.sidebar.file_uploader *)
  dark_mode : bool;                      (* st.sidebar.checkbox, styling only *)
  reset_clicked : bool;                  (* st.sidebar.button("Reset Chat") *)
  chat_input : option str                (* st.chat_input, when it is drawn *)
}.

(** Calls observable from outside, in the order the script makes them. *)
Inductive event :=
| EvSuccess (msg : str)                            (* st.success *)
| EvExtract (f : UploadedFile)                     (* text_extractor_pdf *)
| EvGetenv (name : str)                            (* os.getenv *)
| EvConfigure (api_key : option str)               (* genai.configure *)
| EvGenerativeModel (name : str)                   (* genai.GenerativeModel *)
| EvEmbeddings (model_name : str)                  (* HuggingFaceEmbeddings *)
| EvSplit (chunk_size chunk_overlap : nat) (text : str)  (* split_text *)
| EvFromTexts (chunks : list str)                  (* FAISS.from_texts *)
| EvChatInput                                      (* st.chat_input *)
| EvRetrieve (k : nat) (query : str)               (* get_relevant_documents *)
| EvTyping                                         (* typing-dots placeholder *)
| EvGenerate (prompt : str)                        (* generate_content *)
| EvTyped (typed_text : str)                       (* one animation frame *)
| EvBubble (r : role) (text : str).                (* one rendered turn *)

(** ** The monad of one execution *)

Record run_state := RunState { session : session_state; trace : list event }.

Definition M (A : Type) : Type := run_state -> run_state * result A.

Definition ret {A} (a : A) : M A := fun s => (s, inr a).

Definition bind {A B} (m : M A) (k : A -> M B) : M B :=
  fun s =>
    match m s with
    | (s', inr a) => k a s'
    | (s', inl e) => (s', inl e)
    end.

Definition emit (e : event) : M unit :=
  fun s => ({| session := session s; trace := trace s ++ [e] |}, inr tt).

(** A call to the outside: recorded, then it returns or raises. *)
Definition call {A} (e : event) (r : result A) : M A :=
  fun s => ({| session := session s; trace := trace s ++ [e] |}, r).

Definition set_chat_history (h : list turn) : M unit :=
  fun s => ({| session := {| chat_history := Some h |}; trace := trace s |},
            inr tt).

(** [if "chat_history" not in st.session_state: ... = []] *)
Definition init_chat_history : M unit :=
  fun s =>
    match chat_history (session s) with
    | Some _ => (s, inr tt)
    | None => set_chat_history [] s
    end.

(** [st.session_state.chat_history.append(t)] *)
Definition chat_history_append (t : turn) : M unit :=
  fun s =>
    match chat_history (session s) with
    | Some h => set_chat_history (h ++ [t]) s
    | None => (s, inl (Exception "AttributeError"))
    end.

Fixpoint for_each {A} (l : list A) (body : A -> M unit) : M unit :=
  match l with
  | [] => ret tt
  | a :: rest => bind (body a) (fun _ => for_each rest body)
  end.

Notation "x <- m ;; k" := (bind m (fun x => k))
  (at level 61, m at next level, right associativity).
Notation "m ;; k" := (bind m (fun _ => k))
  (at level 61, right associativity).

Section Script.

(** Library objects the script only passes around. *)
Variables GenerativeModel Embeddings VectorStore : Type.

(** The answers of the libraries and of the process environment during one
    execution of the script. *)
Record world := World {
  os_getenv : str -> option str;
  text_extractor_pdf : UploadedFile -> result str;
  genai_configure : option str -> result unit;
  genai_GenerativeModel : str -> result GenerativeModel;
  HuggingFaceEmbeddings : str -> result Embeddings;
  (* RecursiveCharacterTextSplitter(chunk_size, chunk_overlap).split_text *)
  split_text : nat -> nat -> str -> result (list str);
  FAISS_from_texts : list str -> Embeddings -> result VectorStore;
  (* similarity search of the store, returning each doc.page_content *)
  similarity_search : VectorStore -> nat -> str -> result (list str);
  (* llm_model.generate_content(prompt).text *)
  generate_content_text : GenerativeModel -> str -> result str
}.

(** [vector_store.as_retriever(search_kwargs={"k": k})] *)
Record Retriever := { vectorstore : VectorStore; search_k : nat }.

Definition as_retriever (vs : VectorStore) (k : nat) : Retriever :=
  {| vectorstore := vs; search_k := k |}.

Definition get_relevant_documents (w : world) (r : Retriever) (query : str)
  : result (list str) :=
  similarity_search w (vectorstore r) (search_k r) query.


(** ** The script *)

Definition GOOGLE_API_KEY : str := lit "GOOGLE_API_KEY".
Definition gemini_model : str := lit "gemini-2.5-flash-lite".
Definition minilm_model : str := lit "all-MiniLM-L6-v2".

(** [f"<span class='pdf-highlight'>{doc.page_content}</span>"] *)
Definition span_open : str := lit "<span class='pdf-highlight'>".
Definition span_close : str := lit "</span>".
Definition highlight (page_content : str) : str :=
  span_open ++ page_content ++ span_close.

(** The three fixed pieces of the prompt f-string (lines 210-214); every
    line of the literal carries the sixteen blanks of its indentation. *)
Definition indent : str := lit "                ".
Definition prompt_head : str :=
  newline ++ indent ++ lit "You are a helpful assistant."
  ++ newline ++ indent ++ lit "Context: ".
Definition prompt_question : str := newline ++ indent ++ lit "User question: ".
Definition prompt_tail : str := newline ++ indent.

Definition make_context (retrieved_docs : list str) : str :=
  join (lit " ") (map highlight retrieved_docs).

Definition make_prompt (context user_input : str) : str :=
  prompt_head ++ context ++ prompt_question ++ user_input ++ prompt_tail.

(** Reading [st.session_state.chat_history]. *)
Definition get_chat_history : M (list turn) :=
  fun s =>
    match chat_history (session s) with
    | Some h => (s, inr h)
    | None => (s, inl (Exception "AttributeError"))
    end.

(** Lines 200-250: the body of [if user_input:]. *)
Definition answer (w : world) (llm_model : GenerativeModel)
    (retriever : Retriever) (user_input : str) : M unit :=
  chat_history_append {| turn_role := user; content := user_input |} ;;
  retrieved_docs <- call (EvRetrieve (search_k retriever) user_input)
                         (get_relevant_documents w retriever user_input) ;;
  let context := make_context retrieved_docs in
  let prompt := make_prompt context user_input in
  emit EvTyping ;;
  response <- call (EvGenerate prompt)
                   (generate_content_text w llm_model prompt) ;;
  for_each (prefixes_from [] response)
           (fun typed_text => emit (EvTyped typed_text)) ;;
  chat_history_append {| turn_role := assistant; content := response |}.

(** Lines 252-274: the loop that renders the history. *)
Definition display_chat_history : M unit :=
  h <- get_chat_history ;;
  for_each h (fun chat => emit (EvBubble (turn_role chat) (content chat))).

(** One execution of [rag.py].  Its value is the [retriever] bound at line
    195 when the execution got that far, [None] when a guard skipped it. *)
Definition rag (w : world) (inp : inputs) : M (option Retriever) :=
  init_chat_history ;;
  (if reset_clicked inp
   then set_chat_history [] ;; emit (EvSuccess (lit "Chat history cleared!"))
   else ret tt) ;;
  match file_uploaded inp with
  | None => ret None
  | Some f =>
    file_text <- call (EvExtract f) (text_extractor_pdf w f) ;;
    if truthy (strip file_text) then
      let key := os_getenv w GOOGLE_API_KEY in
      emit (EvGetenv GOOGLE_API_KEY) ;;
      call (EvConfigure key) (genai_configure w key) ;;
      llm_model <- call (EvGenerativeModel gemini_model)
                        (genai_GenerativeModel w gemini_model) ;;
      embedding_model <- call (EvEmbeddings minilm_model)
                              (HuggingFaceEmbeddings w minilm_model) ;;
      chunks <- call (EvSplit 300 50 file_text)
                     (split_text w 300 50 file_text) ;;
      match chunks with
      | [] => ret None
      | _ :: _ =>
        vector_store <- call (EvFromTexts chunks)
                             (FAISS_from_texts w chunks embedding_model) ;;
        let retriever := as_retriever vector_store 3 in
        emit EvChatInput ;;
        match chat_input inp with
        | Some user_input =>
            if truthy user_input
            then answer w llm_model retriever user_input
            else ret tt
        | None => ret tt
        end ;;
        display_chat_history ;;
        ret (Some retriever)
      end
    else ret None
  end.

(** What one execution leaves behind: the session state Streamlit keeps, the
    calls it made, and whether it ran to the end or raised. *)
Record outcome := Outcome {
  final_session : session_state;
  calls : list event;
  returned : result (option Retriever)
}.

Definition run (w : world) (s : session_state) (inp : inputs) : outcome :=
  let '(st, r) := rag w inp {| session := s; trace := [] |} in
  {| final_session := session st; calls := trace st; returned := r |}.

(** A session: the successive executions of the script, each against the
    world of its moment, threading [st.session_state]. *)
Fixpoint run_session (s : session_state) (runs : list (world * inputs))
  : session_state :=
  match runs with
  | [] => s
  | (w, inp) :: rest => run_session (final_session (run w s inp)) rest
  end.

End Script.

(** The turns of a session state. *)
Definition history (s : session_state) : list turn :=
  match chat_history s with Some h => h | None => [] end.

(** ** The Chunker and the Vector Index of the specification

    The script hands chunking to [RecursiveCharacterTextSplitter] and
    indexing and search to [FAISS]; neither library is under [src/].  The
    definitions of this part follow sections 4.1 and 4.2 of the
    specification instead. *)

Definition str_eqb (a b : str) : bool :=
  if list_eq_dec N.eq_dec a b then true else false.

Definition ends_with (suffix s : str) : bool :=
  (length suffix <=? length s)
  && str_eqb (skipn (length s - length suffix) s) suffix.

(** Modelled from the spec: the nearest preceding boundary within a window
    (4.1), as the longest prefix of [window], of at most [n] characters,
    that ends with [boundary]; the splitter library is missing from
    [src/]. *)
Fixpoint cut_at (boundary : str) (n : nat) (window : str) : option str :=
  match n with
  | 0 => None
  | S n' =>
      if ends_with boundary (firstn n window)
      then Some (firstn n window)
      else cut_at boundary n' window
  end.

Definition paragraph_break : str := newline ++ newline.
Definition sentence_break : str := lit ". ".
Definition word_break : str := lit " ".

(** Modelled from the spec: the structural-break preference of the Chunker
    (4.1: paragraph, then sentence, then word, else the raw character
    limit); the splitter library is missing from [src/]. *)
Definition break_window (window : str) : str :=
  match cut_at paragraph_break (length window) window with
  | Some c => c
  | None =>
    match cut_at sentence_break (length window) window with
    | Some c => c
    | None =>
      match cut_at word_break (length window) window with
      | Some c => c
      | None => window
      end
    end
  end.

(** Modelled from the spec: the greedy windows of the Chunker (4.1): a text
    that fits is one chunk, a longer one gives a window and continues
    [max_size - overlap] characters after the window's start; the splitter
    library is missing from [src/]. *)
Fixpoint windows (fuel max_size overlap : nat) (text : str) : list str :=
  match fuel with
  | 0 => []
  | S fuel' =>
      match text with
      | [] => []
      | _ :: _ =>
          if length text <=? max_size then [text]
          else break_window (firstn max_size text)
               :: windows fuel' max_size overlap
                    (skipn (max_size - overlap) text)
      end
  end.

(** Modelled from the spec: [chunk(text, max_size, overlap)] of 4.1, where
    empty text yields an empty sequence; the splitter library is missing
    from [src/]. *)
Definition chunk (text : str) (max_size overlap : nat) : list str :=
  windows (length text) max_size overlap text.

Section VectorIndex.

(** Embedding vectors, and the similarity score of two of them.  The order
    of the scores is all that retrieval uses; they are integers here. *)
Variable vec : Type.
Variable similarity : vec -> vec -> Z.

(** Modelled from the spec: the Vector Index (4.2) holds (vector, text)
    pairs, here in insertion order; the FAISS library is missing from
    [src/]. *)
Definition Index := list (vec * str).

(** Modelled from the spec: [build] of 4.2, which embeds every chunk and
    fails with EmptyCorpusError on an empty sequence; the FAISS library is
    missing from [src/]. *)
Definition build (embed : str -> vec) (chunks : list str) : result Index :=
  match chunks with
  | [] => inl (Exception "EmptyCorpusError")
  | _ :: _ => inr (map (fun c => (embed c, c)) chunks)
  end.

(** A stored entry seen from a query: where it was inserted, how similar it
    is, and its text. *)
Record hit := Hit { position : nat; score : Z; text : str }.

Definition score_entries (qv : vec) (idx : Index) : list hit :=
  map (fun '(i, (v, t)) => Hit i (similarity qv v) t)
      (combine (seq 0 (length idx)) idx).

(** Modelled from the spec: the order of retrieval (4.2), where [a] comes
    no later than [b] when it is more similar, or as similar and inserted
    no later; the FAISS library is missing from [src/]. *)
Definition before (a b : hit) : bool :=
  (score b <? score a)%Z
  || ((score a =? score b)%Z && (position a <=? position b)).

Fixpoint insert_hit (h : hit) (l : list hit) : list hit :=
  match l with
  | [] => [h]
  | x :: rest => if before h x then h :: l else x :: insert_hit h rest
  end.

Fixpoint rank (l : list hit) : list hit :=
  match l with
  | [] => []
  | h :: rest => insert_hit h (rank rest)
  end.

(** Modelled from the spec: the [k] best entries for a query (4.2), ranked
    by insertion; the FAISS library is missing from [src/]. *)
Definition top_hits (embed : str -> vec) (idx : Index) (query : str)
    (k : nat) : list hit :=
  firstn k (rank (score_entries (embed query) idx)).

(** Modelled from the spec: [retrieve] of 4.2, which embeds the query,
    scores every stored vector and returns the [k] best texts, most similar
    first, the earlier inserted first among equals; the FAISS library is
    missing from [src/]. *)
Definition retrieve (embed : str -> vec) (idx : Index) (query : str)
    (k : nat) : list str :=
  map text (top_hits embed idx query k).

Definition comes_before (a b : hit) : Prop := before a b = true.

(** Strictly earlier in the order of retrieval. *)
Definition outranks (a b : hit) : Prop :=
  (score b < score a)%Z \/ (score a = score b /\ position a < position b).

(** [h] is the entry stored at its position in [idx], scored against [qv]. *)
Definition hit_of (qv : vec) (idx : Index) (h : hit) : Prop :=
  exists v, nth_error idx (position h) = Some (v, text h)
            /\ score h = similarity qv v.

(** The Embedder as a service: [embedder n] is the function it computes at
    its [n]-th call.  It is deterministic when the call does not matter. *)
Definition deterministic (embedder : nat -> str -> vec) : Prop :=
  forall i j t, embedder i t = embedder j t.

(** Modelled from the spec: what 4.2 asks of the entries [retrieve]
    answers with, whoever computes them: stored entries scored against the
    query vector, most similar first and the earlier inserted first among
    equals, [k] of them or the whole index if it holds fewer, and no entry
    left out that would come before a returned one; the FAISS library is
    missing from [src/]. *)
Definition meets_retrieval_contract (qv : vec) (idx : Index) (k : nat)
    (hits : list hit) : Prop :=
  Forall (hit_of qv idx) hits
  /\ StronglySorted outranks hits
  /\ length hits = Nat.min k (length idx)
  /\ (forall h h',
         In h hits -> hit_of qv idx h' -> ~ In h' hits -> outranks h h').

(** Modelled from the spec: [found] is an answer 4.2 allows to a call of
    [retrieve] in which the Embedder computes [embed]; the FAISS library is
    missing from [src/]. *)
Definition retrieved (embed : str -> vec) (idx : Index) (query : str)
    (k : nat) (found : list str) : Prop :=
  exists hits,
    found = map text hits
    /\ meets_retrieval_contract (embed query) idx k hits.

End VectorIndex.

(** ** The text splitter of the library

    Line 190 builds langchain's [RecursiveCharacterTextSplitter] with its
    defaults (separators blank line, newline, blank and the empty string;
    separators kept at the start of the pieces; chunks stripped) and line
    191 calls its [split_text].  The library is not under [src/]; the
    definitions of this part follow its code, function by function, with
    the names of the library. *)

Definition len (s : str) : Z := Z.of_nat (length s).

Definition starts_with (pre s : str) : bool :=
  str_eqb (firstn (length pre) s) pre.

(** [re.search(re.escape(sep), text)]: [sep] occurs in [text]. *)
Fixpoint contains (sep text : str) : bool :=
  starts_with sep text
  || match text with
     | [] => false
     | _ :: rest => contains sep rest
     end.

(** [re.split(f"({sep})", text)] for a literal, non-empty [sep]: the texts
    between the matches, leftmost first and not overlapping, with the
    separator itself after each but the last.  [skip] counts the characters
    of a match still to pass, [cur] is the text since the last match. *)
Fixpoint re_split (sep : str) (skip : nat) (cur text : str) : list str :=
  match text with
  | [] => [cur]
  | c :: rest =>
      match skip with
      | S k => re_split sep k cur rest
      | 0 =>
          if starts_with sep text
          then cur :: sep :: re_split sep (length sep - 1) [] rest
          else re_split sep 0 (cur ++ [c]) rest
      end
  end.

(** [[_splits[i] + _splits[i + 1] for i in range(1, len(_splits), 2)]], on
    [_splits[1:]]; [re.split] with one group gives an odd number of items,
    so no item is left alone at the end. *)
Fixpoint pair_up (l : list str) : list str :=
  match l with
  | s :: t :: rest => (s ++ t) :: pair_up rest
  | _ => []
  end.

(** [_split_text_with_regex(text, separator, keep_separator=True)] *)
Definition _split_text_with_regex (text separator : str) : list str :=
  let splits :=
    match separator with
    | [] => map (fun c => [c]) text
    | _ :: _ =>
        match re_split separator 0 [] text with
        | [] => []
        | first :: others => first :: pair_up others
        end
    end in
  filter (fun s => negb (str_eqb s [])) splits.

(** [TextSplitter._join_docs], with [strip_whitespace=True]. *)
Definition _join_docs (docs : list str) (separator : str) : option str :=
  match strip (join separator docs) with
  | [] => None
  | text => Some text
  end.

Definition append_doc (docs : list str) (doc : option str) : list str :=
  match doc with
  | Some text => docs ++ [text]
  | None => docs
  end.

Section Splitter.

Variables chunk_size chunk_overlap : nat.

(** The [while] loop of [_merge_splits], which drops documents from the
    front of [current_doc]. *)
Fixpoint pop_front (separator_len _len : Z) (current_doc : list str)
    (total : Z) : result (list str * Z) :=
  if ((total >? Z.of_nat chunk_overlap)
      || ((total + _len
           + (if (0 <? length current_doc)%nat then separator_len else 0)
           >? Z.of_nat chunk_size)
          && (total >? 0)))%Z
  then
    match current_doc with
    | [] => inl (Exception "IndexError")
    | d0 :: rest =>
        pop_front separator_len _len rest
          (total - (len d0
                    + (if (1 <? length current_doc)%nat then separator_len else 0)))%Z
    end
  else inr (current_doc, total).

(** The [for] loop of [TextSplitter._merge_splits]. *)
Fixpoint merge_loop (separator : str) (splits docs current_doc : list str)
    (total : Z) : result (list str) :=
  match splits with
  | [] => inr (append_doc docs (_join_docs current_doc separator))
  | d :: rest =>
      let separator_len := len separator in
      let _len := len d in
      let go docs current_doc total :=
        let current_doc := current_doc ++ [d] in
        merge_loop separator rest docs current_doc
          (total + _len
           + (if (1 <? length current_doc)%nat then separator_len else 0))%Z in
      if (total + _len
          + (if (0 <? length current_doc)%nat then separator_len else 0)
          >? Z.of_nat chunk_size)%Z
      then
        if 0 <? length current_doc
        then
          let docs := append_doc docs (_join_docs current_doc separator) in
          match pop_front separator_len _len current_doc total with
          | inl e => inl e
          | inr (current_doc, total) => go docs current_doc total
          end
        else go docs current_doc total
      else go docs current_doc total
  end.

Definition _merge_splits (splits : list str) (separator : str)
  : result (list str) :=
  merge_loop separator splits [] [] 0%Z.

(** The first loop of [_split_text]: the first separator that occurs in
    the text, and the separators after it; the empty separator stops the
    search and has none after it. *)
Fixpoint choose_separator (separators : list str) (text last : str)
  : str * list str :=
  match separators with
  | [] => (last, [])
  | _s :: rest =>
      if str_eqb _s [] then ([], [])
      else if contains _s text then (_s, rest)
      else choose_separator rest text last
  end.

Definition flush (final_chunks _good_splits : list str)
  : result (list str) :=
  match _good_splits with
  | [] => inr final_chunks
  | _ :: _ =>
      match _merge_splits _good_splits [] with
      | inl e => inl e
      | inr merged_text => inr (final_chunks ++ merged_text)
      end
  end.

(** The second loop of [_split_text], over the pieces; [recurse] is the
    call of [_split_text] with the separators that are left. *)
Fixpoint each_split (recurse : str -> result (list str))
    (new_separators splits final_chunks _good_splits : list str)
  : result (list str) :=
  match splits with
  | [] => flush final_chunks _good_splits
  | s :: rest =>
      if (len s <? Z.of_nat chunk_size)%Z
      then each_split recurse new_separators rest final_chunks
                      (_good_splits ++ [s])
      else
        match flush final_chunks _good_splits with
        | inl e => inl e
        | inr final_chunks =>
            match new_separators with
            | [] => each_split recurse new_separators rest
                               (final_chunks ++ [s]) []
            | _ :: _ =>
                match recurse s with
                | inl e => inl e
                | inr other_info =>
                    each_split recurse new_separators rest
                               (final_chunks ++ other_info) []
                end
            end
        end
  end.

(** [RecursiveCharacterTextSplitter._split_text]; [depth] bounds the nested
    calls, one per separator left. *)
Fixpoint _split_text (depth : nat) (text : str) (separators : list str)
  : result (list str) :=
  match depth with
  | 0 => inl (Exception "RecursionError")
  | S depth' =>
      let '(separator, new_separators) :=
        choose_separator separators text (last separators []) in
      let splits := _split_text_with_regex text separator in
      each_split (fun s => _split_text depth' s new_separators)
                 new_separators splits [] []
  end.

End Splitter.

Definition default_separators : list str :=
  [newline ++ newline; newline; lit " "; []].

(** [RecursiveCharacterTextSplitter(chunk_size=..., chunk_overlap=...)
    .split_text(text)]; the constructor refuses an overlap larger than the
    chunk size. *)
Definition RecursiveCharacterTextSplitter_split_text
    (chunk_size chunk_overlap : nat) (text : str) : result (list str) :=
  if chunk_size <? chunk_overlap then inl (Exception "ValueError")
  else _split_text chunk_size chunk_overlap
                   (S (length default_separators)) text default_separators.

(** The chunks of a text that fits in one chunk: the text stripped, or
    nothing when that is empty. *)
Definition one_stripped_chunk (text : str) : list str :=
  match strip text with
  | [] => []
  | t => [t]
  end.

(** ** Vocabulary of the statements *)

(** [l1] is an initial segment of [l2]. *)
Definition prefix_of {A} (l1 l2 : list A) : Prop := exists l3, l2 = l1 ++ l3.

(** The history an execution starts from once lines 36-41 have run. *)
Definition start_history (s : session_state) (inp : inputs) : list turn :=
  if reset_clicked inp then [] else history s.

(** Calls that are made only once an index is being built or used. *)
Definition before_index (e : event) : Prop :=
  match e with
  | EvFromTexts _ | EvChatInput | EvRetrieve _ _ | EvTyping
  | EvGenerate _ | EvTyped _ | EvBubble _ _ => False
  | _ => True
  end.

(** The same widget values, without the click on Reset Chat. *)
Definition without_reset (inp : inputs) : inputs :=
  {| file_uploaded := file_uploaded inp; dark_mode := dark_mode inp;
     reset_clicked := false; chat_input := chat_input inp |}.

(** The fixed arguments of the calls to the splitter and to the retriever. *)
Definition fixed_parameters (e : event) : Prop :=
  match e with
  | EvSplit chunk_size chunk_overlap _ => chunk_size = 300 /\ chunk_overlap = 50
  | EvRetrieve k _ => k = 3
  | _ => True
  end.

(** The same widget values, without the submitted query. *)
Definition without_query (inp : inputs) : inputs :=
  {| file_uploaded := file_uploaded inp; dark_mode := dark_mode inp;
     reset_clicked := reset_clicked inp; chat_input := None |}.

(** The frames of the typing animation among the calls, in order. *)
Definition typed_frames (l : list event) : list str :=
  flat_map (fun e => match e with EvTyped t => [t] | _ => [] end) l.

(** The turns rendered as bubbles among the calls, in order. *)
Definition rendered (l : list event) : list turn :=
  flat_map (fun e => match e with EvBubble r t => [Turn r t] | _ => [] end) l.

Definition is_bubble (e : event) : bool :=
  match e with EvBubble _ _ => true | _ => false end.

(** The calls other than the rendering of the history. *)
Definition without_bubbles (l : list event) : list event :=
  filter (fun e => negb (is_bubble e)) l.

Definition is_extract (e : event) : bool :=
  match e with EvExtract _ => true | _ => false end.
Definition is_from_texts (e : event) : bool :=
  match e with EvFromTexts _ => true | _ => false end.
Definition is_retrieve (e : event) : bool :=
  match e with EvRetrieve _ _ => true | _ => false end.
Definition is_generate (e : event) : bool :=
  match e with EvGenerate _ => true | _ => false end.

(** How many of the calls satisfy [p]. *)
Definition count_calls (p : event -> bool) (l : list event) : nat :=
  length (filter p l).

(** A history made of exchanges: a user turn, then an assistant turn. *)
Fixpoint paired (h : list turn) : Prop :=
  match h with
  | [] => True
  | Turn user _ :: Turn assistant _ :: rest => paired rest
  | _ => False
  end.

(** Every character of [s] is one that [strip] removes. *)
Definition blank (s : str) : Prop := Forall (fun c => is_space c = true) s.

Section Paths.

Variables GenerativeModel Embeddings VectorStore : Type.
Let world := world GenerativeModel Embeddings VectorStore.

(** The execution gets through lines 178-195: a file is uploaded, its text
    is not blank, every library call answers, and the chunks are not
    empty.  [llm_model] and [vector_store] are the objects then bound. *)
Definition indexed (w : world) (inp : inputs) (llm_model : GenerativeModel)
    (vector_store : VectorStore) : Prop :=
  exists f file_text embedding_model chunks,
    file_uploaded inp = Some f
    /\ text_extractor_pdf w f = inr file_text
    /\ truthy (strip file_text) = true
    /\ genai_configure w (os_getenv w GOOGLE_API_KEY) = inr tt
    /\ genai_GenerativeModel w gemini_model = inr llm_model
    /\ HuggingFaceEmbeddings w minilm_model = inr embedding_model
    /\ split_text w 300 50 file_text = inr chunks
    /\ chunks <> []
    /\ FAISS_from_texts w chunks embedding_model = inr vector_store.

(** The execution carries the query [user_input], and the retriever answers
    it with [retrieved_docs]. *)
Definition asked (w : world) (inp : inputs) (vector_store : VectorStore)
    (user_input : str) (retrieved_docs : list str) : Prop :=
  chat_input inp = Some user_input
  /\ truthy user_input = true
  /\ similarity_search w vector_store 3 user_input = inr retrieved_docs.

(** Every library call of the world answers; the store may still refuse
    an empty list of chunks. *)
Definition never_raises (w : world) : Prop :=
  (forall f, exists t, text_extractor_pdf w f = inr t)
  /\ (forall key, genai_configure w key = inr tt)
  /\ (forall name, exists m, genai_GenerativeModel w name = inr m)
  /\ (forall name, exists m, HuggingFaceEmbeddings w name = inr m)
  /\ (forall size overlap t, exists c, split_text w size overlap t = inr c)
  /\ (forall c m, c <> [] -> exists v, FAISS_from_texts w c m = inr v)
  /\ (forall v k q, exists d, similarity_search w v k q = inr d)
  /\ (forall m prompt, exists r, generate_content_text w m prompt = inr r).

(** Every execution of a session, started from [s], runs to its end. *)
Fixpoint all_return (s : session_state) (runs : list (world * inputs))
  : Prop :=
  match runs with
  | [] => True
  | (w, inp) :: rest =>
      (exists r, returned (run w s inp) = inr r)
      /\ all_return (final_session (run w s inp)) rest
  end.

End Paths.

(** ** A concrete world

    The splitter and the store of the specification, an embedder that
    measures the length of a text, and a similarity that prefers close
    lengths; the environment, the extracted text, the splitter and the
    generation service are left to each example. *)

Definition length_embed (t : str) : Z := Z.of_nat (length t).
Definition closeness (a b : Z) : Z := (- Z.abs (a - b))%Z.

Definition lab_world (env : str -> option str) (pdf_text : result str)
    (splitter : nat -> nat -> str -> result (list str))
    (service : str -> result str) : world str str (Index Z) :=
  {| os_getenv := env;
     text_extractor_pdf := fun _ => pdf_text;
     genai_configure := fun _ => inr tt;
     genai_GenerativeModel := fun name => inr name;
     HuggingFaceEmbeddings := fun name => inr name;
     split_text := splitter;
     FAISS_from_texts := fun chunks _ => build length_embed chunks;
     similarity_search :=
       fun vs k q => inr (retrieve closeness length_embed vs q k);
     generate_content_text := fun _ prompt => service prompt |}.

Definition spec_splitter (max_size overlap : nat) (t : str)
  : result (list str) := inr (chunk t max_size overlap).

Definition no_env : str -> option str := fun _ => None.
Definition key_env : str -> option str :=
  fun name => if str_eqb name GOOGLE_API_KEY then Some (lit "k-123") else None.

Definition paris_text : str := lit "The capital of France is Paris.".
Definition paris_query : str := lit "What is the capital of France?".
Definition a_pdf : UploadedFile := [Byte.x25; Byte.x50; Byte.x44; Byte.x46].

Definition echo_service : str -> result str := fun _ => inr (lit "Paris.").
Definition down_service : str -> result str :=
  fun _ => inl (Exception "ServiceUnavailable").

Definition upload_only : inputs :=
  {| file_uploaded := Some a_pdf; dark_mode := false;
     reset_clicked := false; chat_input := None |}.
Definition ask_paris : inputs :=
  {| file_uploaded := Some a_pdf; dark_mode := false;
     reset_clicked := false; chat_input := Some paris_query |}.
Definition click_reset : inputs :=
  {| file_uploaded := Some a_pdf; dark_mode := false;
     reset_clicked := true; chat_input := None |}.

Definition five_chunks : list str :=
  [lit "aaaa"; lit "bb"; lit "cc"; lit "d"; lit "eeeeeee"].
Definition five_index : Index Z :=
  map (fun c => (length_embed c, c)) five_chunks.

Definition three_turns : list turn :=
  [ Turn user (lit "hello"); Turn assistant (lit "hi"); Turn user (lit "ok") ].

(** The concrete world with a store whose search raises. *)
Definition search_down_world : world str str (Index Z) :=
  {| os_getenv := key_env;
     text_extractor_pdf := fun _ => inr paris_text;
     genai_configure := fun _ => inr tt;
     genai_GenerativeModel := fun name => inr name;
     HuggingFaceEmbeddings := fun name => inr name;
     split_text := spec_splitter;
     FAISS_from_texts := fun chunks _ => build length_embed chunks;
     similarity_search := fun _ _ _ => inl (Exception "SearchFailed");
     generate_content_text := fun _ _ => inr (lit "Paris.") |}.

(** A document that splits into five chunks, and a short query. *)
Definition five_chunk_splitter : nat -> nat -> str -> result (list str) :=
  fun _ _ _ => inr five_chunks.
Definition ask_xx : inputs :=
  {| file_uploaded := Some a_pdf; dark_mode := false;
     reset_clicked := false; chat_input := Some (lit "xx") |}.

Definition submit_empty : inputs :=
  {| file_uploaded := Some a_pdf; dark_mode := false;
     reset_clicked := false; chat_input := Some [] |}.
Definition reset_and_ask : inputs :=
  {| file_uploaded := Some a_pdf; dark_mode := true;
     reset_clicked := true; chat_input := Some paris_query |}.
Definition two_exchanges : list turn :=
  [ Turn user (lit "hello"); Turn assistant (lit "hi");
    Turn user (lit "more"); Turn assistant (lit "sure") ].

(** ** Executing the monad step by step *)

Definition log (s : run_state) (e : event) : run_state :=
  {| session := session s; trace := trace s ++ [e] |}.

Lemma bind_ret {A B} (a : A) (k : A -> M B) s : bind (ret a) k s = k a s.
Proof. reflexivity. Qed.

Lemma bind_emit {B} e (k : unit -> M B) s : bind (emit e) k s = k tt (log s e).
Proof. reflexivity. Qed.

Lemma bind_call_inr {A B} e (a : A) (k : A -> M B) s :
  bind (call e (inr a)) k s = k a (log s e).
Proof. reflexivity. Qed.

Lemma bind_call_inl {A B} e x (k : A -> M B) s :
  bind (call e (inl x : result A)) k s = (log s e, inl x).
Proof. reflexivity. Qed.

Lemma bind_bind {A B C} (m : M A) (k : A -> M B) (k' : B -> M C) s :
  bind (bind m k) k' s = bind m (fun a => bind (k a) k') s.
Proof. unfold bind. destruct (m s) as [s' [e | a]]; reflexivity. Qed.

Lemma for_each_emit {A} (g : A -> event) (l : list A) s :
  for_each l (fun a => emit (g a)) s
  = ({| session := session s; trace := trace s ++ map g l |}, inr tt).
Proof.
  revert s. induction l as [| a l IH]; intros s; simpl.
  - unfold ret. rewrite app_nil_r. destruct s; reflexivity.
  - rewrite bind_emit, IH. unfold log; simpl.
    rewrite <- app_assoc. reflexivity.
Qed.

Lemma bind_for_each_emit {A B} (g : A -> event) (l : list A)
    (k : unit -> M B) s :
  bind (for_each l (fun a => emit (g a))) k s
  = k tt {| session := session s; trace := trace s ++ map g l |}.
Proof. unfold bind. rewrite for_each_emit. reflexivity. Qed.

(** After lines 36-41 the history is bound: to the empty list after a click
    on Reset Chat, else to what the session held. *)
Lemma opening_lines {B} (inp : inputs) (k : unit -> M B) s tr :
  bind init_chat_history
    (fun _ => bind (if reset_clicked inp
                    then set_chat_history [] ;;
                         emit (EvSuccess (lit "Chat history cleared!"))
                    else ret tt) k)
    {| session := s; trace := tr |}
  = k tt {| session := {| chat_history := Some (start_history s inp) |};
            trace := tr ++ (if reset_clicked inp
                            then [EvSuccess (lit "Chat history cleared!")]
                            else []) |}.
Proof.
  unfold start_history, history, bind, init_chat_history, set_chat_history,
    emit, ret.
  destruct s as [[h |]]; destruct (reset_clicked inp); simpl;
    rewrite ?app_nil_r; reflexivity.
Qed.

Lemma append_bound {B} (t : turn) (k : unit -> M B) h tr :
  bind (chat_history_append t) k
    {| session := {| chat_history := Some h |}; trace := tr |}
  = k tt {| session := {| chat_history := Some (h ++ [t]) |}; trace := tr |}.
Proof. reflexivity. Qed.

Lemma display_bound {B} (k : unit -> M B) h tr :
  bind display_chat_history k
    {| session := {| chat_history := Some h |}; trace := tr |}
  = k tt {| session := {| chat_history := Some h |};
            trace := tr ++ map (fun chat => EvBubble (turn_role chat)
                                                     (content chat)) h |}.
Proof.
  unfold display_chat_history. rewrite bind_bind.
  unfold bind at 1. unfold get_chat_history. cbn [session chat_history].
  rewrite bind_for_each_emit. reflexivity.
Qed.

Create Rewrite HintDb exec.
#[local] Hint Rewrite @bind_ret @bind_emit @bind_call_inr @bind_call_inl
  @bind_for_each_emit @append_bound @display_bound : exec.

(** One execution, as a case analysis on the answers of the world. *)
Ltac enter_script :=
  unfold run, rag; rewrite opening_lines.

Ltac settle c :=
  first [ match goal with H : c = _ |- _ => rewrite H end
        | destruct c eqn:? ].

Ltac ask_world :=
  match goal with
  | |- context [bind (call _ ?r) _ (RunState _ _)] =>
      lazymatch r with
      | inl _ => fail
      | inr _ => fail
      | _ => settle r
      end
  | |- context [bind (match ?c with Some _ => _ | None => _ end) _
                     (RunState _ _)] => settle c
  | |- context [bind (if ?b then _ else _) _ (RunState _ _)] => settle b
  | |- context [(match ?c with [] => _ | _ :: _ => _ end) (RunState _ _)] =>
      settle c
  | |- context [(if ?b then _ else _) (RunState _ _)] => settle b
  end.

Ltac exec_step :=
  first [ progress (autorewrite with exec; unfold log; cbn [session trace])
        | progress (unfold answer, get_relevant_documents, as_retriever;
                    cbn [vectorstore search_k]; rewrite ?bind_bind)
        | ask_world ].

Ltac exec :=
  repeat exec_step; unfold ret;
  cbn [final_session calls returned session trace chat_history].

(** ** Initial segments *)

Lemma prefix_of_refl {A} (l : list A) : prefix_of l l.
Proof. exists []. now rewrite app_nil_r. Qed.

Lemma prefix_of_app {A} (l l' : list A) : prefix_of l (l ++ l').
Proof. now exists l'. Qed.

Lemma prefix_of_trans {A} (l1 l2 l3 : list A) :
  prefix_of l1 l2 -> prefix_of l2 l3 -> prefix_of l1 l3.
Proof.
  intros [a ->] [b ->]. exists (a ++ b). now rewrite app_assoc.
Qed.

#[local] Hint Resolve prefix_of_refl prefix_of_app : core.

(** A property of every recorded call, shown call by call. *)
Ltac all_events :=
  repeat (apply Forall_app; split);
  repeat match goal with
         | |- Forall _ (if ?b then _ else _) => destruct b
         | |- Forall _ [] => constructor
         | |- Forall _ (_ :: _) => constructor
         | |- Forall _ (map _ _) =>
             apply Forall_forall; intros ? [? [<- _]]%in_map_iff
         end.

(** ** The paths through one execution *)

Section PathLemmas.

Variables G E V : Type.
Implicit Types (w : world G E V) (s : session_state) (inp : inputs).

(** A query that is answered. *)
Lemma run_answered w s inp llm vs q docs r :
  indexed w inp llm vs -> asked w inp vs q docs ->
  generate_content_text w llm (make_prompt (make_context docs) q) = inr r ->
  final_session (run w s inp)
    = Session (Some (start_history s inp ++ [Turn user q; Turn assistant r]))
  /\ returned (run w s inp) = inr (Some (as_retriever vs 3)).
Proof.
  intros (f & file_text & emb & chunks & Hf & Hx & Ht & Hc & Hm & He & Hs
          & Hne & Hb) (Hq & Hqt & Hd) Hg.
  destruct chunks as [| c0 chunks]; [congruence |].
  enter_script. rewrite Hf. exec.
  rewrite <- app_assoc. split; reflexivity.
Qed.

(** A query whose generation call raises. *)
Lemma run_generation_raises w s inp llm vs q docs e :
  indexed w inp llm vs -> asked w inp vs q docs ->
  generate_content_text w llm (make_prompt (make_context docs) q) = inl e ->
  final_session (run w s inp)
    = Session (Some (start_history s inp ++ [Turn user q]))
  /\ returned (run w s inp) = inl e.
Proof.
  intros (f & file_text & emb & chunks & Hf & Hx & Ht & Hc & Hm & He & Hs
          & Hne & Hb) (Hq & Hqt & Hd) Hg.
  destruct chunks as [| c0 chunks]; [congruence |].
  enter_script. rewrite Hf. exec.
  split; reflexivity.
Qed.

(** An execution that builds the index and has no query to answer. *)
Lemma run_waiting w s inp llm vs :
  indexed w inp llm vs -> chat_input inp = None ->
  final_session (run w s inp) = Session (Some (start_history s inp))
  /\ returned (run w s inp) = inr (Some (as_retriever vs 3)).
Proof.
  intros (f & file_text & emb & chunks & Hf & Hx & Ht & Hc & Hm & He & Hs
          & Hne & Hb) Hq.
  destruct chunks as [| c0 chunks]; [congruence |].
  enter_script. rewrite Hf. exec.
  split; reflexivity.
Qed.

(** Whatever happens, the turns an execution starts from are kept. *)
Lemma run_extends w s inp :
  prefix_of (start_history s inp) (history (final_session (run w s inp))).
Proof.
  enter_script.
  destruct (file_uploaded inp) as [f |]; exec; unfold history; cbn; auto.
  rewrite <- app_assoc; auto.
Qed.

End PathLemmas.

(** The concrete world builds its index from the Paris text. *)
Lemma lab_indexed env service inp :
  file_uploaded inp = Some a_pdf ->
  indexed (lab_world env (inr paris_text) spec_splitter service) inp
          gemini_model [(length_embed paris_text, paris_text)].
Proof.
  intros Hf. exists a_pdf, paris_text, minilm_model, [paris_text].
  repeat split; try assumption; try reflexivity. discriminate.
Qed.

Lemma lab_asked env service :
  asked (lab_world env (inr paris_text) spec_splitter service) ask_paris
        [(length_embed paris_text, paris_text)] paris_query [paris_text].
Proof. repeat split. Qed.

(** ** The chat history *)

Section History.

Variables G E V : Type.
Implicit Types (w : world G E V) (s : session_state) (inp : inputs).

(** What an execution returns depends neither on the session state it
    starts from nor on a click on Reset Chat. *)
Lemma returned_frame w s s' inp :
  returned (run w s inp) = returned (run w s' (without_reset inp)).
Proof.
  unfold run, rag. rewrite !opening_lines.
  unfold without_reset; cbn [file_uploaded chat_input reset_clicked].
  destruct (file_uploaded inp) as [f |]; exec; reflexivity.
Qed.

Lemma run_session_extends (runs : list (world G E V * inputs)) s :
  Forall (fun r => reset_clicked (snd r) = false) runs ->
  prefix_of (history s) (history (run_session s runs)).
Proof.
  revert s. induction runs as [| [w inp] runs IH]; intros s Hall; simpl.
  - apply prefix_of_refl.
  - inversion Hall as [| ? ? Hno Hrest]; subst. simpl in Hno.
    eapply prefix_of_trans; [| apply IH; assumption].
    pose proof (run_extends w s inp) as Hp.
    unfold start_history in Hp. now rewrite Hno in Hp.
Qed.

End History.

(** C8.  The chat history is append-only.  Every execution of the script,
    however it ends, keeps the turns it starts from (the stored ones, or
    none after a click on Reset Chat) as an initial segment of the history
    it leaves; so does every sequence of executions without such a click;
    and an answered query appends exactly one user turn followed by one
    assistant turn. *)
Theorem chat_history_append_only :
  forall G E V : Type,
    (forall (w : world G E V) s inp,
        prefix_of (start_history s inp)
                  (history (final_session (run w s inp))))
    /\ (forall (runs : list (world G E V * inputs)) s,
           Forall (fun r => reset_clicked (snd r) = false) runs ->
           prefix_of (history s) (history (run_session s runs)))
    /\ (forall (w : world G E V) s inp llm vs q docs r,
           indexed w inp llm vs -> asked w inp vs q docs ->
           generate_content_text w llm (make_prompt (make_context docs) q)
             = inr r ->
           history (final_session (run w s inp))
             = start_history s inp ++ [Turn user q; Turn assistant r]).
Proof.
  intros G E V. split; [| split].
  - intros w s inp. apply run_extends.
  - intros runs s. apply run_session_extends.
  - intros w s inp llm vs q docs r Hi Ha Hg.
    destruct (run_answered s Hi Ha Hg) as [-> _]. reflexivity.
Qed.

Lemma chat_history_append_only_witness :
  let w := lab_world key_env (inr paris_text) spec_splitter echo_service in
  indexed w ask_paris gemini_model [(length_embed paris_text, paris_text)]
  /\ asked w ask_paris [(length_embed paris_text, paris_text)]
           paris_query [paris_text]
  /\ history (final_session (run w (Session (Some three_turns)) ask_paris))
     = three_turns ++ [Turn user paris_query; Turn assistant (lit "Paris.")].
Proof.
  intros w. split; [| split].
  - apply lab_indexed. reflexivity.
  - apply lab_asked.
  - apply (proj2 (proj2 (chat_history_append_only _ _ _))
             w (Session (Some three_turns)) ask_paris gemini_model
             [(length_embed paris_text, paris_text)] paris_query
             [paris_text] (lit "Paris.")).
    + apply lab_indexed. reflexivity.
    + apply lab_asked.
    + reflexivity.
Defined.

(** C10.  In every execution, whatever the session, the inputs and the
    world, each call to the splitter is made with chunk size 300 and
    overlap 50, and each call to the retriever with k = 3. *)
Theorem retrieval_and_chunking_parameters_fixed :
  forall (G E V : Type) (w : world G E V) s inp,
    Forall fixed_parameters (calls (run w s inp)).
Proof.
  intros G E V w s inp. enter_script.
  destruct (file_uploaded inp) as [f |]; exec; all_events; cbn; auto.
Qed.

(** C1 (amended).  When the generation call of a query raises, the
    execution stops with that exception: the user turn is already in the
    history and no assistant turn follows it.  The session state stays
    usable: an execution that follows, once the service answers, appends
    its user and assistant turns after that user turn. *)
Theorem generation_failure_leaves_user_turn :
  forall (G E V : Type) (w : world G E V) s inp llm vs q docs e,
    indexed w inp llm vs -> asked w inp vs q docs ->
    generate_content_text w llm (make_prompt (make_context docs) q) = inl e ->
    let o := run w s inp in
    returned o = inl e
    /\ final_session o = Session (Some (start_history s inp ++ [Turn user q]))
    /\ forall (w' : world G E V) inp' llm' vs' q' docs' r',
         reset_clicked inp' = false ->
         indexed w' inp' llm' vs' -> asked w' inp' vs' q' docs' ->
         generate_content_text w' llm' (make_prompt (make_context docs') q')
           = inr r' ->
         history (final_session (run w' (final_session o) inp'))
           = (start_history s inp ++ [Turn user q])
             ++ [Turn user q'; Turn assistant r'].
Proof.
  intros G E V w s inp llm vs q docs e Hi Ha Hg o.
  destruct (run_generation_raises s Hi Ha Hg) as [Hs Hr].
  subst o. rewrite Hs, Hr. split; [reflexivity | split; [reflexivity |]].
  intros w' inp' llm' vs' q' docs' r' Hno Hi' Ha' Hg'.
  destruct (run_answered (Session (Some (start_history s inp ++ [Turn user q])))
                         Hi' Ha' Hg') as [-> _].
  unfold start_history at 1. rewrite Hno. reflexivity.
Qed.

Lemma generation_failure_leaves_user_turn_witness :
  let w := lab_world key_env (inr paris_text) spec_splitter down_service in
  let o := run w (Session (Some three_turns)) ask_paris in
  generate_content_text w gemini_model
    (make_prompt (make_context [paris_text]) paris_query)
    = inl (Exception "ServiceUnavailable")
  /\ returned o = inl (Exception "ServiceUnavailable")
  /\ final_session o
     = Session (Some (three_turns ++ [Turn user paris_query])).
Proof.
  intros w o. split; [reflexivity |].
  destruct (generation_failure_leaves_user_turn
              (w := w) (Session (Some three_turns)) (inp := ask_paris)
              (lab_indexed key_env down_service ask_paris eq_refl)
              (lab_asked key_env down_service) eq_refl) as (Hr & Hs & _).
  split; [exact Hr | exact Hs].
Defined.

(** C1 as stated fails: with the generation service down, the history ends
    with the user turn and holds no assistant turn at all. *)
Lemma generation_failure_no_assistant_turn :
  let w := lab_world key_env (inr paris_text) spec_splitter down_service in
  let o := run w (Session (Some [])) ask_paris in
  returned o = inl (Exception "ServiceUnavailable")
  /\ history (final_session o) = [Turn user paris_query]
  /\ ~ (exists t, In t (history (final_session o)) /\ turn_role t = assistant).
Proof.
  intros w o. split; [reflexivity | split; [reflexivity |]].
  intros (t & [<- | []] & Hrole). discriminate Hrole.
Qed.

(** C7.  An execution triggered by Reset Chat (no query rides along) leaves
    an empty chat history, of length 0.  Nothing else is kept between
    executions, and what the execution builds and returns, the retriever
    over the rebuilt index or nothing, is what it would have been without
    the click, from any session state.  A query that follows, with the file
    still in the uploader, is answered and the history is then exactly its
    two turns. *)
Theorem reset_clears_only_the_history :
  forall (G E V : Type) (w : world G E V) s inp,
    reset_clicked inp = true -> chat_input inp = None ->
    let o := run w s inp in
    chat_history (final_session o) = Some []
    /\ length (history (final_session o)) = 0
    /\ (forall s', returned o = returned (run w s' (without_reset inp)))
    /\ forall (w' : world G E V) inp' llm vs q docs r,
         reset_clicked inp' = false ->
         indexed w' inp' llm vs -> asked w' inp' vs q docs ->
         generate_content_text w' llm (make_prompt (make_context docs) q)
           = inr r ->
         returned (run w' (final_session o) inp')
           = inr (Some (as_retriever vs 3))
         /\ history (final_session (run w' (final_session o) inp'))
            = [Turn user q; Turn assistant r].
Proof.
  intros G E V w s inp Hreset Hnone o.
  assert (Hcleared : final_session o = Session (Some [])).
  { subst o. enter_script. rewrite Hreset.
    destruct (file_uploaded inp) as [f |]; exec;
      unfold start_history; rewrite Hreset; reflexivity. }
  rewrite Hcleared. cbn [chat_history history length].
  split; [reflexivity | split; [reflexivity | split]].
  - intros s'. apply returned_frame.
  - intros w' inp' llm vs q docs r Hno Hi Ha Hg.
    destruct (run_answered (Session (Some [])) Hi Ha Hg) as [-> ->].
    unfold start_history. rewrite Hno. split; reflexivity.
Qed.

Lemma reset_clears_only_the_history_witness :
  let w := lab_world key_env (inr paris_text) spec_splitter echo_service in
  let o := run w (Session (Some three_turns)) click_reset in
  length three_turns = 3
  /\ length (history (final_session o)) = 0
  /\ returned o = returned (run w (Session (Some three_turns)) upload_only)
  /\ history (final_session (run w (final_session o) ask_paris))
     = [Turn user paris_query; Turn assistant (lit "Paris.")].
Proof.
  intros w o.
  destruct (reset_clears_only_the_history
              w (Session (Some three_turns)) click_reset eq_refl eq_refl)
    as (_ & Hlen & Hframe & Hnext).
  split; [reflexivity | split; [exact Hlen | split]].
  - exact (Hframe (Session (Some three_turns))).
  - exact (proj2 (Hnext w ask_paris gemini_model
                    [(length_embed paris_text, paris_text)] paris_query
                    [paris_text] (lit "Paris.") eq_refl
                    (lab_indexed key_env echo_service ask_paris eq_refl)
                    (lab_asked key_env echo_service) eq_refl)).
Defined.

(** Membership in a recorded trace, call by call. *)
Ltac in_calls H :=
  repeat first
    [ apply in_app_or in H; destruct H as [H | H]
    | match type of H with
      | In _ (if ?b then _ else _) => destruct b
      | In _ (map _ _) => apply in_map_iff in H; destruct H as (? & H & _)
      | In _ (_ :: _) => destruct H as [H | H]
      | In _ [] => destruct H
      end ];
  try discriminate H.

(** C2 (amended).  When the extracted text is blank (empty once stripped),
    or when the splitter returns no chunks, the execution runs to its end
    without raising and without reporting anything: no index is built, no
    chat input is offered, no retrieval or generation is attempted, and the
    chat history is left as it was. *)
Theorem blank_text_or_no_chunks_skips_silently :
  forall (G E V : Type) (w : world G E V) s inp f file_text,
    file_uploaded inp = Some f ->
    text_extractor_pdf w f = inr file_text ->
    (strip file_text = []
     \/ exists llm emb,
          genai_configure w (os_getenv w GOOGLE_API_KEY) = inr tt
          /\ genai_GenerativeModel w gemini_model = inr llm
          /\ HuggingFaceEmbeddings w minilm_model = inr emb
          /\ split_text w 300 50 file_text = inr []) ->
    let o := run w s inp in
    returned o = inr None
    /\ final_session o = Session (Some (start_history s inp))
    /\ Forall before_index (calls o).
Proof.
  intros G E V w s inp f file_text Hf Hx Hcase o. subst o.
  enter_script. rewrite Hf.
  destruct Hcase as [Hblank | (llm & emb & Hc & Hm & He & Hs)].
  - rewrite Hx. autorewrite with exec. rewrite Hblank. cbn [truthy].
    exec. repeat split. all_events; exact I.
  - exec; repeat split; all_events; exact I.
Qed.

Lemma blank_text_or_no_chunks_skips_silently_witness :
  let w := lab_world key_env (inr paris_text) (fun _ _ _ => inr [])
                     echo_service in
  let o := run w (Session (Some three_turns)) ask_paris in
  split_text w 300 50 paris_text = inr []
  /\ returned o = inr None
  /\ final_session o = Session (Some three_turns)
  /\ Forall before_index (calls o).
Proof.
  intros w o. split; [reflexivity |].
  apply (@blank_text_or_no_chunks_skips_silently
           _ _ _ w (Session (Some three_turns)) ask_paris a_pdf paris_text
           eq_refl eq_refl).
  right. exists gemini_model, minilm_model. repeat split.
Defined.

(** C2 as stated fails: with no chunks the execution ends normally, nothing
    is raised and the trace holds the library calls only; the same with a
    text that extracts empty. *)
Lemma empty_chunks_raise_nothing :
  let w := lab_world key_env (inr paris_text) (fun _ _ _ => inr [])
                     echo_service in
  let o := run w (Session (Some [])) upload_only in
  split_text w 300 50 paris_text = inr []
  /\ returned o = inr None
  /\ returned o <> inl (Exception "EmptyCorpusError")
  /\ calls o = [ EvExtract a_pdf; EvGetenv GOOGLE_API_KEY;
                 EvConfigure (Some (lit "k-123"));
                 EvGenerativeModel gemini_model; EvEmbeddings minilm_model;
                 EvSplit 300 50 paris_text ]
  /\ let o' := run (lab_world key_env (inr []) spec_splitter echo_service)
                   (Session (Some [])) upload_only in
     returned o' = inr None /\ calls o' = [EvExtract a_pdf].
Proof.
  intros w o. repeat split; try reflexivity. discriminate.
Qed.

(** C3 (amended).  The key is read from the environment variable
    GOOGLE_API_KEY in exactly those executions that have an uploaded file
    whose extracted text is not blank, and nowhere else; what is read,
    present or absent, is handed unchecked to the configuration call.  An
    absent key stops nothing in the script: when the library calls answer,
    the execution builds its index and runs to its end. *)
Theorem api_key_read_after_extraction_unchecked :
  forall (G E V : Type) (w : world G E V) s inp,
    let o := run w s inp in
    (forall name, In (EvGetenv name) (calls o) ->
        name = GOOGLE_API_KEY
        /\ exists f file_text,
             file_uploaded inp = Some f
             /\ text_extractor_pdf w f = inr file_text
             /\ truthy (strip file_text) = true)
    /\ (forall f file_text,
           file_uploaded inp = Some f ->
           text_extractor_pdf w f = inr file_text ->
           truthy (strip file_text) = true ->
           In (EvGetenv GOOGLE_API_KEY) (calls o)
           /\ In (EvConfigure (os_getenv w GOOGLE_API_KEY)) (calls o))
    /\ (forall key, In (EvConfigure key) (calls o) ->
           key = os_getenv w GOOGLE_API_KEY)
    /\ (forall llm vs,
           os_getenv w GOOGLE_API_KEY = None ->
           indexed w inp llm vs -> chat_input inp = None ->
           returned o = inr (Some (as_retriever vs 3))).
Proof.
  intros G E V w s inp o. subst o. split; [| split; [| split]].
  - intros name H. revert H. enter_script.
    destruct (file_uploaded inp) as [f |]; exec; intros H; in_calls H;
      injection H as <-; split; eauto 10.
  - intros f file_text Hf Hx Ht. enter_script. rewrite Hf.
    exec; rewrite ?in_app_iff; cbn [In]; tauto.
  - intros key H. revert H. enter_script.
    destruct (file_uploaded inp) as [f |]; exec; intros H; in_calls H;
      now injection H as <-.
  - intros llm vs Habsent Hi Hq. apply (run_waiting s Hi Hq).
Qed.

Lemma api_key_read_after_extraction_unchecked_witness :
  let w := lab_world no_env (inr paris_text) spec_splitter echo_service in
  let o := run w (Session None) upload_only in
  os_getenv w GOOGLE_API_KEY = None
  /\ In (EvGetenv GOOGLE_API_KEY) (calls o)
  /\ In (EvConfigure None) (calls o)
  /\ returned o
     = inr (Some (as_retriever [(length_embed paris_text, paris_text)] 3)).
Proof.
  intros w o.
  destruct (api_key_read_after_extraction_unchecked w (Session None)
              upload_only) as (_ & Hread & _ & Hruns).
  split; [reflexivity |].
  destruct (Hread a_pdf paris_text eq_refl eq_refl eq_refl) as [Hg Hc].
  split; [exact Hg | split; [exact Hc |]].
  apply (Hruns gemini_model [(length_embed paris_text, paris_text)] eq_refl
               (lab_indexed no_env echo_service upload_only eq_refl) eq_refl).
Defined.

(** C3 as stated fails: before any upload the environment is not read at
    all, and with the key absent an execution with an uploaded file still
    runs to its end, index built. *)
Lemma absent_key_fails_nothing :
  let w := lab_world no_env (inr paris_text) spec_splitter echo_service in
  os_getenv w GOOGLE_API_KEY = None
  /\ calls (run w (Session None)
              {| file_uploaded := None; dark_mode := false;
                 reset_clicked := false; chat_input := None |}) = []
  /\ returned (run w (Session None) upload_only)
     = inr (Some (as_retriever [(length_embed paris_text, paris_text)] 3))
  /\ (forall e, returned (run w (Session None) upload_only) <> inl e).
Proof.
  intros w. repeat split; try reflexivity. intros e. discriminate.
Qed.

(** ** The prompt *)

Lemma join_cons sep p q rest :
  join sep (p :: q :: rest) = p ++ sep ++ join sep (q :: rest).
Proof. reflexivity. Qed.

(** Joining the highlighted texts with a blank is joining the texts
    themselves with the markup between two of them, inside one opening and
    one closing tag. *)
Lemma context_joins_texts (docs : list str) :
  docs <> [] ->
  make_context docs
  = span_open ++ join (span_close ++ lit " " ++ span_open) docs ++ span_close.
Proof.
  unfold make_context. intros Hne.
  induction docs as [| d docs IH]; [congruence |].
  destruct docs as [| d' docs].
  - reflexivity.
  - cbn [map]. rewrite !join_cons. cbn [map] in IH.
    rewrite IH by discriminate.
    unfold highlight. rewrite <- !app_assoc. reflexivity.
Qed.

(** Joining with a separator, read without [join]: put the separator in
    front of every part, concatenate, and the result is the separator
    followed by the joined text. *)
Lemma join_as_concat (sep : str) (parts : list str) :
  parts <> [] -> sep ++ join sep parts = concat (map (app sep) parts).
Proof.
  intros Hne. induction parts as [| p parts IH]; [congruence |].
  destruct parts as [| q parts].
  - cbn [join map concat]. now rewrite app_nil_r.
  - rewrite join_cons. cbn [map concat] in IH |- *.
    rewrite <- IH by discriminate. now rewrite <- app_assoc.
Qed.

(** C4.  The prompt of every generation call is the fixed instruction
    text, then the context, then the fixed question label, the user's
    question as typed, and the fixed tail of the template.  The context is
    the retrieved chunk texts, each inside the highlight markup, with one
    blank between two of them: empty when nothing was retrieved, and
    otherwise, with a blank put in front, the concatenation of blank,
    opening tag, text and closing tag over all retrieved texts in order.
    With at least one retrieved text this is: fixed text, the chunk texts
    joined with one fixed separator, fixed text, the question, fixed text.
    Every answered or failed query sends exactly that prompt. *)
Theorem prompt_is_instruction_context_question :
  forall (G E V : Type) (w : world G E V) s inp,
    let o := run w s inp in
    (forall prompt, In (EvGenerate prompt) (calls o) ->
        exists vs user_input retrieved_docs context,
          chat_input inp = Some user_input
          /\ similarity_search w vs 3 user_input = inr retrieved_docs
          /\ prompt = prompt_head ++ context
                      ++ prompt_question ++ user_input ++ prompt_tail
          /\ context = join (lit " ") (map highlight retrieved_docs)
          /\ (retrieved_docs = [] -> context = [])
          /\ (retrieved_docs <> [] ->
              lit " " ++ context
              = concat (map (fun d => lit " " ++ span_open ++ d ++ span_close)
                            retrieved_docs))
          /\ (retrieved_docs <> [] ->
              prompt = (prompt_head ++ span_open)
                       ++ join (span_close ++ lit " " ++ span_open)
                               retrieved_docs
                       ++ (span_close ++ prompt_question)
                       ++ user_input ++ prompt_tail))
    /\ (forall llm vs q docs,
           indexed w inp llm vs -> asked w inp vs q docs ->
           In (EvGenerate (make_prompt (make_context docs) q)) (calls o)).
Proof.
  intros G E V w s inp o. subst o. split.
  - intros prompt H. revert H. enter_script.
    destruct (file_uploaded inp) as [f |]; exec; intros H; in_calls H;
      injection H as <-;
      match goal with
      | Hd : similarity_search w _ 3 _ = inr ?docs |- _ =>
          (eexists _, _, docs, (make_context docs);
           split; [reflexivity | split; [exact Hd |]])
      end;
      (split; [reflexivity | split; [reflexivity | split; [| split]]]).
    all: try (intros ->; reflexivity).
    all: try (intros Hne; unfold make_context;
              rewrite join_as_concat
                by (intros Hm; apply map_eq_nil in Hm; contradiction);
              rewrite map_map; reflexivity).
    all: intros Hne; unfold make_prompt; rewrite (context_joins_texts Hne);
      rewrite <- !app_assoc; reflexivity.
  - intros llm vs q docs
      (f & file_text & emb & chunks & Hf & Hx & Ht & Hc & Hm & He & Hs
       & Hne & Hb) (Hq & Hqt & Hd).
    destruct chunks as [| c0 chunks]; [congruence |].
    enter_script. rewrite Hf.
    exec; rewrite ?in_app_iff; cbn [In]; tauto.
Qed.

Lemma prompt_is_instruction_context_question_witness :
  let w := lab_world key_env (inr paris_text) five_chunk_splitter
                     echo_service in
  let o := run w (Session (Some [])) ask_xx in
  similarity_search w five_index 3 (lit "xx")
    = inr [lit "bb"; lit "cc"; lit "d"]
  /\ In (EvGenerate
           (newline ++ lit "                You are a helpful assistant."
            ++ newline
            ++ lit "                Context: <span class='pdf-highlight'>bb</span> <span class='pdf-highlight'>cc</span> <span class='pdf-highlight'>d</span>"
            ++ newline ++ lit "                User question: xx"
            ++ newline ++ lit "                "))
        (calls o).
Proof.
  intros w o.
  assert (Hi : indexed w ask_xx gemini_model five_index).
  { exists a_pdf, paris_text, minilm_model, five_chunks.
    repeat split; try reflexivity. discriminate. }
  assert (Ha : asked w ask_xx five_index (lit "xx")
                     [lit "bb"; lit "cc"; lit "d"]) by (repeat split).
  split; [reflexivity |].
  exact (proj2 (prompt_is_instruction_context_question w (Session (Some []))
                  ask_xx) gemini_model five_index (lit "xx")
               [lit "bb"; lit "cc"; lit "d"] Hi Ha).
Defined.

(** ** Ranking and retrieval in the specification's index *)

Section Ranking.

Variable vec : Type.
Variable similarity : vec -> vec -> Z.

Lemma before_total a b : before a b = false -> before b a = true.
Proof.
  unfold before. intros H.
  apply orb_false_iff in H as [H1 H2].
  apply Z.ltb_ge in H1.
  destruct (Z.ltb_spec (score a) (score b)) as [Hlt | Hge]; [reflexivity |].
  assert (Heq : score a = score b) by lia.
  rewrite Heq, Z.eqb_refl in H2 |- *. cbn in H2 |- *.
  apply Nat.leb_gt in H2. apply Nat.leb_le. lia.
Qed.

Lemma before_trans a b c :
  comes_before a b -> comes_before b c -> comes_before a c.
Proof.
  unfold comes_before, before. intros H1 H2.
  apply orb_true_iff in H1. apply orb_true_iff in H2. apply orb_true_iff.
  rewrite !andb_true_iff, !Z.ltb_lt, !Z.eqb_eq, !Nat.leb_le in *.
  lia.
Qed.

Lemma insert_hit_perm h l : Permutation (insert_hit h l) (h :: l).
Proof.
  induction l as [| x l IH]; simpl; [reflexivity |].
  destruct (before h x); [reflexivity |].
  rewrite IH. apply perm_swap.
Qed.

Lemma rank_perm l : Permutation (rank l) l.
Proof.
  induction l as [| h l IH]; simpl; [reflexivity |].
  rewrite insert_hit_perm. now constructor.
Qed.

Lemma insert_hit_sorted h l :
  StronglySorted comes_before l -> StronglySorted comes_before (insert_hit h l).
Proof.
  induction 1 as [| x l Hs IH Hall]; simpl.
  - repeat constructor.
  - destruct (before h x) eqn:Hb.
    + constructor; [now constructor |].
      constructor; [exact Hb |].
      eapply Forall_impl; [| exact Hall].
      intros c Hc. eapply before_trans; eassumption.
    + constructor; [exact IH |].
      eapply Permutation_Forall;
        [symmetry; apply insert_hit_perm |].
      constructor; [now apply before_total | exact Hall].
Qed.

Lemma rank_sorted l : StronglySorted comes_before (rank l).
Proof.
  induction l as [| h l IH]; simpl; [constructor |].
  now apply insert_hit_sorted.
Qed.

(** Among entries at distinct positions, coming before is outranking. *)
Lemma sorted_outranks l :
  NoDup (map position l) ->
  StronglySorted comes_before l -> StronglySorted outranks l.
Proof.
  intros Hnd Hs. induction Hs as [| x l Hs IH Hall]; [constructor |].
  simpl in Hnd. inversion Hnd as [| ? ? Hnotin Hnd']; subst.
  constructor; [now apply IH |].
  apply Forall_forall. intros y Hy.
  rewrite Forall_forall in Hall. specialize (Hall y Hy).
  assert (Hpos : position x <> position y).
  { intros Heq. apply Hnotin. rewrite Heq. now apply in_map. }
  unfold comes_before, before in Hall. unfold outranks.
  apply orb_true_iff in Hall.
  rewrite andb_true_iff, Z.ltb_lt, Z.eqb_eq, Nat.leb_le in Hall. lia.
Qed.

Lemma firstn_sorted {A} (R : A -> A -> Prop) k l :
  StronglySorted R l -> StronglySorted R (firstn k l).
Proof.
  intros Hs. revert k. induction Hs as [| x l Hs IH Hall]; intros k.
  - rewrite firstn_nil. constructor.
  - destruct k as [| k]; simpl; [constructor |].
    constructor; [apply IH |].
    apply Forall_forall. intros y Hy.
    rewrite Forall_forall in Hall. apply Hall.
    rewrite <- (firstn_skipn k l). apply in_or_app. now left.
Qed.

Lemma sorted_app_inv {A} (R : A -> A -> Prop) l1 l2 :
  StronglySorted R (l1 ++ l2) ->
  forall a b, In a l1 -> In b l2 -> R a b.
Proof.
  induction l1 as [| x l1 IH]; simpl; intros Hs a b Ha Hb; [easy |].
  inversion Hs as [| ? ? Hs' Hall]; subst.
  destruct Ha as [<- | Ha].
  - rewrite Forall_forall in Hall. apply Hall. apply in_or_app. now right.
  - now apply IH.
Qed.

(** The scored entries, in insertion order. *)
Lemma score_entries_positions qv (idx : Index vec) :
  map position (score_entries similarity qv idx) = seq 0 (length idx).
Proof.
  unfold score_entries. generalize 0 as a.
  induction idx as [| [v t] idx IH]; intros a; simpl; [reflexivity |].
  now rewrite IH.
Qed.

Lemma score_entries_texts qv (idx : Index vec) :
  map text (score_entries similarity qv idx) = map snd idx.
Proof.
  unfold score_entries. generalize 0 as a.
  induction idx as [| [v t] idx IH]; intros a; simpl; [reflexivity |].
  now rewrite IH.
Qed.

Lemma score_entries_hit_of qv (idx : Index vec) :
  Forall (hit_of similarity qv idx) (score_entries similarity qv idx).
Proof.
  unfold score_entries.
  assert (Hgen : forall a (l : Index vec),
             Forall (fun h => exists v,
                         nth_error l (position h - a) = Some (v, text h)
                         /\ score h = similarity qv v /\ a <= position h)
                    (map (fun '(i, (v, t)) => Hit i (similarity qv v) t)
                         (combine (seq a (length l)) l))).
  { intros a l. revert a. induction l as [| [v t] l IH]; intros a; simpl.
    - constructor.
    - constructor.
      + exists v. simpl. rewrite Nat.sub_diag. simpl. auto.
      + eapply Forall_impl; [| apply (IH (S a))].
        intros h (v' & Hn & Hsc & Hle). exists v'.
        replace (position h - a) with (S (position h - S a)) by lia.
        simpl. auto with arith. }
  eapply Forall_impl; [| apply (Hgen 0 idx)].
  intros h (v & Hn & Hsc & _). exists v.
  now rewrite Nat.sub_0_r in Hn.
Qed.

Lemma build_texts (embed : str -> vec) chunks idx :
  build embed chunks = inr idx -> map snd idx = chunks /\ chunks <> [].
Proof.
  unfold build. destruct chunks as [| c chunks]; [discriminate |].
  intros [= <-]. split; [| discriminate].
  simpl. f_equal. rewrite map_map. apply map_id.
Qed.

End Ranking.

(** C5.  Against a built index, [retrieve] returns the texts of at most [k]
    stored entries, every one a chunk the index was built from; they come
    most similar first, the earlier inserted first among equally similar
    ones; no entry left out outranks a returned one; and an index of at
    most [k] entries is returned whole. *)
Theorem retrieve_top_k_in_order :
  forall (vec : Type) (similarity : vec -> vec -> Z) (embed : str -> vec)
         (chunks : list str) (idx : Index vec) (query : str) (k : nat),
    build embed chunks = inr idx ->
    let hits := top_hits similarity embed idx query k in
    let found := retrieve similarity embed idx query k in
    found = map text hits
    /\ length found <= k
    /\ (forall t, In t found -> In t chunks)
    /\ Forall (hit_of similarity (embed query) idx) hits
    /\ StronglySorted outranks hits
    /\ (forall h h',
           In h hits ->
           In h' (score_entries similarity (embed query) idx) ->
           ~ In h' hits -> outranks h h')
    /\ (length idx <= k ->
        length found = length idx /\ Permutation found chunks).
Proof.
  intros vec similarity embed chunks idx query k Hbuild hits found.
  destruct (build_texts _ _ Hbuild) as [Htexts _].
  set (entries := score_entries similarity (embed query) idx).
  assert (Hperm : Permutation (rank entries) entries) by apply rank_perm.
  assert (Hsorted : StronglySorted outranks (rank entries)).
  { apply sorted_outranks; [| apply rank_sorted].
    apply (Permutation_NoDup (l := map position entries)).
    - symmetry. now apply Permutation_map.
    - unfold entries. rewrite score_entries_positions. apply seq_NoDup. }
  assert (Hsub : forall h, In h hits -> In h entries).
  { intros h Hh. apply (Permutation_in _ Hperm).
    unfold hits, top_hits in Hh. fold entries in Hh.
    rewrite <- (firstn_skipn k (rank entries)). apply in_or_app. now left. }
  split; [reflexivity |]. split.
  { unfold found, retrieve. rewrite length_map. apply firstn_le_length. }
  split.
  { intros t Ht. unfold found, retrieve in Ht.
    apply in_map_iff in Ht as (h & <- & Hh).
    rewrite <- Htexts. unfold entries in Hsub.
    rewrite <- (score_entries_texts similarity (embed query)).
    apply in_map. now apply Hsub. }
  split.
  { apply Forall_forall. intros h Hh.
    pose proof (score_entries_hit_of similarity (embed query) idx) as Hall.
    rewrite Forall_forall in Hall. apply Hall. now apply Hsub. }
  split.
  { unfold hits, top_hits. fold entries. now apply firstn_sorted. }
  split.
  { intros h h' Hh Hh' Hout.
    assert (Hin : In h' (rank entries)).
    { apply (Permutation_in h' (Permutation_sym Hperm)). exact Hh'. }
    rewrite <- (firstn_skipn k (rank entries)) in Hin, Hsorted.
    apply in_app_or in Hin as [Hin | Hin]; [now elim Hout |].
    eapply sorted_app_inv; eassumption. }
  intros Hk.
  assert (Hall : hits = rank entries).
  { unfold hits, top_hits. fold entries. apply firstn_all2.
    rewrite (Permutation_length Hperm). unfold entries.
    rewrite <- (length_map position), score_entries_positions, length_seq.
    exact Hk. }
  unfold found, retrieve. fold hits. rewrite Hall. split.
  - rewrite length_map, (Permutation_length Hperm). unfold entries.
    now rewrite <- (length_map position), score_entries_positions, length_seq.
  - rewrite <- Htexts, <- (score_entries_texts similarity (embed query)).
    now apply Permutation_map.
Qed.

Lemma retrieve_top_k_in_order_witness :
  build length_embed five_chunks = inr five_index
  /\ retrieve closeness length_embed five_index (lit "xx") 3
     = [lit "bb"; lit "cc"; lit "d"]
  /\ length (retrieve closeness length_embed five_index (lit "xx") 3) <= 3
  /\ StronglySorted outranks
       (top_hits closeness length_embed five_index (lit "xx") 3).
Proof.
  split; [reflexivity | split; [reflexivity |]].
  destruct (@retrieve_top_k_in_order Z closeness length_embed five_chunks
              five_index (lit "xx") 3 eq_refl)
    as (_ & Hlen & _ & _ & Hsorted & _).
  split; [exact Hlen | exact Hsorted].
Defined.

(** ** Uniqueness of the answer of retrieval *)

Lemma hit_eq_dec (a b : hit) : {a = b} + {a <> b}.
Proof.
  decide equality.
  - apply (list_eq_dec N.eq_dec).
  - apply Z.eq_dec.
  - apply Nat.eq_dec.
Qed.

Lemma outranks_irrefl (a : hit) : ~ outranks a a.
Proof. unfold outranks. lia. Qed.

Lemma outranks_asym (a b : hit) : outranks a b -> outranks b a -> False.
Proof. unfold outranks. lia. Qed.

(** A sorted list that takes its elements from a sorted list [L], and
    leaves out none that would come before one it holds, is an initial
    segment of [L]. *)
Lemma sorted_top_is_prefix (L l : list hit) :
  StronglySorted outranks L -> StronglySorted outranks l ->
  (forall h, In h l -> In h L) ->
  (forall h h', In h l -> In h' L -> ~ In h' l -> outranks h h') ->
  l = firstn (length l) L.
Proof.
  intros HL. revert l.
  induction HL as [| x L HL IH HxL]; intros l Hl Hsub Htop.
  - destruct l as [| y l]; [reflexivity |].
    destruct (Hsub y (or_introl eq_refl)).
  - destruct l as [| y l]; [reflexivity |].
    rewrite Forall_forall in HxL.
    inversion Hl as [| ? ? Hl' Hyl]; subst. rewrite Forall_forall in Hyl.
    assert (Hy : y = x).
    { destruct (Hsub y (or_introl eq_refl)) as [Hxy | HyL]; [now symmetry |].
      exfalso. pose proof (HxL y HyL) as Hxy.
      destruct (in_dec hit_eq_dec x (y :: l)) as [[Heq | Hin] | Hout].
      - subst. now apply (outranks_irrefl Hxy).
      - exact (outranks_asym Hxy (Hyl x Hin)).
      - apply (outranks_asym Hxy).
        apply Htop; [now left | now left | exact Hout]. }
    subst y. cbn [length firstn]. f_equal. apply IH.
    + exact Hl'.
    + intros h Hh. destruct (Hsub h (or_intror Hh)) as [<- | HhL];
        [| exact HhL].
      exfalso. exact (outranks_irrefl (Hyl x Hh)).
    + intros h h' Hh Hh' Hout.
      apply Htop; [now right | now right |].
      intros [<- | Hin]; [| now apply Hout].
      exact (outranks_irrefl (HxL x Hh')).
Qed.

Section Contract.

Variable vec : Type.
Variable similarity : vec -> vec -> Z.

Lemma hit_of_scored qv (idx : Index vec) (h : hit) :
  hit_of similarity qv idx h -> In h (score_entries similarity qv idx).
Proof.
  unfold score_entries. intros (v & Hn & Hs).
  assert (Hgen : forall a (l : Index vec) p t,
             nth_error l p = Some (v, t) ->
             In (Hit (a + p) (similarity qv v) t)
                (map (fun '(i, (v, t)) => Hit i (similarity qv v) t)
                     (combine (seq a (length l)) l))).
  { intros a l. revert a. induction l as [| [v0 t0] l IH]; intros a p t Hp.
    - destruct p; discriminate Hp.
    - destruct p as [| p]; cbn [length seq combine map].
      + injection Hp as -> ->. left. now rewrite Nat.add_0_r.
      + right. replace (a + S p) with (S a + p) by lia. now apply IH. }
  destruct h as [p s t]. cbn [position score text] in *. subst s.
  exact (Hgen 0 idx p t Hn).
Qed.

Lemma rank_entries_sorted qv (idx : Index vec) :
  StronglySorted outranks (rank (score_entries similarity qv idx)).
Proof.
  apply sorted_outranks; [| apply rank_sorted].
  apply (Permutation_NoDup
           (l := map position (score_entries similarity qv idx))).
  - symmetry. apply Permutation_map, rank_perm.
  - rewrite score_entries_positions. apply seq_NoDup.
Qed.

Lemma rank_entries_length qv (idx : Index vec) :
  length (rank (score_entries similarity qv idx)) = length idx.
Proof.
  rewrite (Permutation_length (rank_perm _)).
  now rewrite <- (length_map position), score_entries_positions, length_seq.
Qed.

(** Whatever meets the contract is the first entries of the ranking. *)
Lemma contract_is_prefix qv (idx : Index vec) k hits :
  meets_retrieval_contract similarity qv idx k hits ->
  hits = firstn k (rank (score_entries similarity qv idx)).
Proof.
  intros (Hof & Hsorted & Hlen & Htop).
  set (L := rank (score_entries similarity qv idx)).
  assert (HinL : forall h, hit_of similarity qv idx h -> In h L).
  { intros h Hh. apply (Permutation_in h (Permutation_sym (rank_perm _))).
    now apply hit_of_scored. }
  assert (HLof : forall h, In h L -> hit_of similarity qv idx h).
  { intros h Hh. apply (Permutation_in h (rank_perm _)) in Hh.
    pose proof (score_entries_hit_of similarity qv idx) as Hall.
    rewrite Forall_forall in Hall. now apply Hall. }
  rewrite Forall_forall in Hof.
  rewrite (@sorted_top_is_prefix L hits).
  - rewrite Hlen.
    destruct (Nat.le_ge_cases k (length idx)) as [Hk | Hk].
    + now rewrite Nat.min_l.
    + rewrite Nat.min_r by exact Hk.
      rewrite !firstn_all2; trivial; unfold L; rewrite rank_entries_length;
        lia.
  - apply rank_entries_sorted.
  - exact Hsorted.
  - intros h Hh. apply HinL. now apply Hof.
  - intros h h' Hh Hh' Hout. apply Htop; auto.
Qed.

(** The computed answer meets the contract. *)
Lemma top_hits_meet_contract (embed : str -> vec) (idx : Index vec) query k :
  meets_retrieval_contract similarity (embed query) idx k
                           (top_hits similarity embed idx query k).
Proof.
  unfold top_hits.
  set (L := rank (score_entries similarity (embed query) idx)).
  assert (Hsub : forall h, In h (firstn k L) -> In h L).
  { intros h Hh. rewrite <- (firstn_skipn k L). apply in_or_app. now left. }
  split; [| split; [| split]].
  - apply Forall_forall. intros h Hh.
    pose proof (score_entries_hit_of similarity (embed query) idx) as Hall.
    rewrite Forall_forall in Hall. apply Hall.
    apply (Permutation_in h (rank_perm _)). now apply Hsub.
  - apply firstn_sorted, rank_entries_sorted.
  - rewrite length_firstn. unfold L. now rewrite rank_entries_length.
  - intros h h' Hh Hh' Hout.
    assert (Hin : In h' L).
    { apply (Permutation_in h' (Permutation_sym (rank_perm _))).
      now apply hit_of_scored. }
    pose proof (rank_entries_sorted (embed query) idx) as Hsorted.
    fold L in Hsorted.
    rewrite <- (firstn_skipn k L) in Hin, Hsorted.
    apply in_app_or in Hin as [Hin | Hin]; [now elim Hout |].
    eapply sorted_app_inv; eassumption.
Qed.

End Contract.

(** C9.  Retrieval is deterministic.  What section 4.2 asks of [retrieve]
    leaves no freedom: [retrieve] gives an answer 4.2 allows, and with an
    Embedder whose answer does not depend on the call, any two answers 4.2
    allows, to two calls on the same index with the same query and the same
    [k], are the same texts in the same order; so are, in particular, the
    answers of [retrieve] at two calls. *)
Theorem retrieval_deterministic :
  forall (vec : Type) (similarity : vec -> vec -> Z)
         (embedder : nat -> str -> vec) (idx : Index vec) (query : str)
         (k : nat),
    deterministic embedder ->
    (forall n, retrieved similarity (embedder n) idx query k
                         (retrieve similarity (embedder n) idx query k))
    /\ (forall n m found found',
           retrieved similarity (embedder n) idx query k found ->
           retrieved similarity (embedder m) idx query k found' ->
           found = found')
    /\ (forall n m,
           retrieve similarity (embedder n) idx query k
           = retrieve similarity (embedder m) idx query k).
Proof.
  intros vec similarity embedder idx query k Hdet.
  assert (Hmeets : forall n,
             retrieved similarity (embedder n) idx query k
                       (retrieve similarity (embedder n) idx query k)).
  { intros n. exists (top_hits similarity (embedder n) idx query k).
    split; [reflexivity | apply top_hits_meet_contract]. }
  assert (Hunique : forall n m found found',
             retrieved similarity (embedder n) idx query k found ->
             retrieved similarity (embedder m) idx query k found' ->
             found = found').
  { intros n m found found' (hits & -> & Hc) (hits' & -> & Hc').
    apply contract_is_prefix in Hc. apply contract_is_prefix in Hc'.
    rewrite Hc, Hc', (Hdet n m query). reflexivity. }
  split; [exact Hmeets | split; [exact Hunique |]].
  intros n m. apply (Hunique n m); apply Hmeets.
Qed.

Lemma retrieval_deterministic_witness :
  let embedder := fun _ : nat => length_embed in
  let hits := [Hit 1 0 (lit "bb"); Hit 2 0 (lit "cc"); Hit 3 (-1) (lit "d")] in
  deterministic embedder
  /\ meets_retrieval_contract closeness (embedder 1 (lit "xx")) five_index 3
                              hits
  /\ retrieve closeness (embedder 0) five_index (lit "xx") 3
     = [lit "bb"; lit "cc"; lit "d"].
Proof.
  intros embedder hits.
  assert (Hdet : deterministic embedder) by (intros i j t; reflexivity).
  assert (Hc : meets_retrieval_contract closeness (embedder 1 (lit "xx"))
                                        five_index 3 hits).
  { split; [| split; [| split]].
    - repeat constructor; eexists; split; reflexivity.
    - repeat constructor; unfold outranks; cbn; lia.
    - reflexivity.
    - intros h h' Hh (v & Hn & Hs) Hout.
      destruct h' as [p s t]. cbn [position score text] in Hn, Hs.
      assert (Hcases : In (Hit p s t) hits
                       \/ Hit p s t = Hit 0 (-2) (lit "aaaa")
                       \/ Hit p s t = Hit 4 (-5) (lit "eeeeeee")).
      { unfold five_index, five_chunks in Hn.
        destruct p as [| [| [| [| [| p]]]]]; cbn [nth_error map] in Hn;
          [| | | | | destruct p; discriminate Hn];
          injection Hn as <- <-; subst s; vm_compute; auto 6. }
      destruct Hcases as [Hin | [-> | ->]]; [contradiction | |];
        destruct Hh as [<- | [<- | [<- | []]]]; unfold outranks; cbn; lia. }
  split; [exact Hdet | split; [exact Hc |]].
  destruct (@retrieval_deterministic Z closeness embedder five_index
              (lit "xx") 3 Hdet) as (Hmeets & Hunique & _).
  apply (Hunique 0 1); [apply Hmeets |].
  exists hits. split; [reflexivity | exact Hc].
Defined.



(** ** Reading the recorded calls *)

Lemma rendered_app l l' : rendered (l ++ l') = rendered l ++ rendered l'.
Proof. apply flat_map_app. Qed.

Lemma rendered_bubbles (h : list turn) :
  rendered (map (fun chat => EvBubble (turn_role chat) (content chat)) h) = h.
Proof.
  induction h as [| [r t] h IH]; [reflexivity |].
  cbn [map rendered flat_map turn_role content app]. f_equal. exact IH.
Qed.

Lemma rendered_frames (l : list str) : rendered (map EvTyped l) = [].
Proof. induction l as [| t l IH]; [reflexivity | exact IH]. Qed.

Lemma typed_frames_app l l' :
  typed_frames (l ++ l') = typed_frames l ++ typed_frames l'.
Proof. apply flat_map_app. Qed.

Lemma typed_frames_frames (l : list str) : typed_frames (map EvTyped l) = l.
Proof.
  induction l as [| t l IH]; [reflexivity |].
  cbn [map typed_frames flat_map app]. f_equal. exact IH.
Qed.

Lemma typed_frames_bubbles (h : list turn) :
  typed_frames (map (fun chat => EvBubble (turn_role chat) (content chat)) h)
  = [].
Proof. induction h as [| t h IH]; [reflexivity | exact IH]. Qed.

Lemma filter_map_none {A} (p : event -> bool) (g : A -> event) (l : list A) :
  (forall a, p (g a) = false) -> filter p (map g l) = [].
Proof.
  intros Hp. induction l as [| a l IH]; [reflexivity |].
  cbn [map filter]. now rewrite Hp.
Qed.

Lemma filter_map_all {A} (p : event -> bool) (g : A -> event) (l : list A) :
  (forall a, p (g a) = true) -> filter p (map g l) = map g l.
Proof.
  intros Hp. induction l as [| a l IH]; [reflexivity |].
  cbn [map filter]. rewrite Hp. now f_equal.
Qed.

(** The projections of a trace, pushed through its pieces. *)
Ltac read_calls :=
  unfold count_calls, without_bubbles;
  repeat first
    [ rewrite rendered_app | rewrite typed_frames_app | rewrite filter_app
    | rewrite rendered_bubbles | rewrite rendered_frames
    | rewrite typed_frames_frames | rewrite typed_frames_bubbles
    | rewrite filter_map_none by (intro; reflexivity)
    | rewrite filter_map_all by (intro; reflexivity)
    | rewrite length_app | rewrite app_nil_r ];
  repeat match goal with
         | |- context [if reset_clicked ?i then _ else _] =>
             destruct (reset_clicked i)
         end;
  cbn [rendered typed_frames flat_map filter app length negb
       is_bubble is_extract is_from_texts is_retrieve is_generate].

Section Cases.

Variables G E V : Type.
Implicit Types (w : world G E V) (s : session_state) (inp : inputs).

(** The three ways an execution can leave the history. *)
Lemma run_history_cases w s inp :
  let o := run w s inp in
  final_session o = Session (Some (start_history s inp))
  \/ (exists q e,
         chat_input inp = Some q /\ truthy q = true
         /\ final_session o = Session (Some (start_history s inp
                                             ++ [Turn user q]))
         /\ returned o = inl e)
  \/ (exists q r vs,
         chat_input inp = Some q /\ truthy q = true
         /\ final_session o
            = Session (Some (start_history s inp
                             ++ [Turn user q; Turn assistant r]))
         /\ returned o = inr (Some (as_retriever vs 3))).
Proof.
  intros o. subst o. enter_script.
  destruct (file_uploaded inp) as [f |]; exec; auto;
    try (right; left; eexists _, _; repeat split; eauto; fail).
  right; right. rewrite <- app_assoc.
  eexists _, _, _. repeat split; eauto.
Qed.

Lemma paired_app h h' : paired h -> paired h' -> paired (h ++ h').
Proof.
  revert h'. induction h as [h IH] using (well_founded_induction
                                           (Wf_nat.well_founded_ltof _ (@length turn))).
  intros h' Hh Hh'. destruct h as [| [[] t] [| [[] t'] rest]]; simpl in *;
    try contradiction; auto.
  apply IH; auto. unfold Wf_nat.ltof. simpl. lia.
Qed.

End Cases.

(** ** Further properties of the script *)

(** X1.  An execution leaves the history in one of three ways: as it
    started (after lines 36-41); with the user turn of its query added, and
    then it raised; or with that user turn and one assistant turn added,
    and then it returned its retriever.  So the history grows by at most
    two turns, and the first of them is the submitted query. *)
Theorem history_grows_by_one_exchange_at_most :
  forall (G E V : Type) (w : world G E V) s inp,
    let o := run w s inp in
    let h := history (final_session o) in
    (h = start_history s inp
     \/ (exists q e, chat_input inp = Some q /\ q <> []
                     /\ h = start_history s inp ++ [Turn user q]
                     /\ returned o = inl e)
     \/ (exists q r vs, chat_input inp = Some q /\ q <> []
                        /\ h = start_history s inp
                               ++ [Turn user q; Turn assistant r]
                        /\ returned o = inr (Some (as_retriever vs 3))))
    /\ length h <= length (start_history s inp) + 2.
Proof.
  intros G E V w s inp o h. subst h.
  assert (Hq : forall q : str, truthy q = true -> q <> [])
    by (intros q Ht ->; discriminate Ht).
  destruct (run_history_cases w s inp)
    as [Hs | [(q & e & Hi & Ht & Hs & Hr) | (q & r & vs & Hi & Ht & Hs & Hr)]];
    fold o in Hs; rewrite Hs; cbn [history chat_history]; split;
    rewrite ?length_app; cbn [length]; try lia.
  - now left.
  - right; left. exists q, e. fold o in Hr. auto.
  - right; right. exists q, r, vs. fold o in Hr. auto.
Qed.

(** X2.  A history made of user/assistant exchanges stays so through every
    execution that runs to its end, and through every session whose
    executions all do. *)
Theorem exchanges_kept_by_returning_executions :
  forall (G E V : Type),
    (forall (w : world G E V) s inp r,
        paired (history s) -> returned (run w s inp) = inr r ->
        paired (history (final_session (run w s inp))))
    /\ (forall (runs : list (world G E V * inputs)) s,
           paired (history s) -> all_return s runs ->
           paired (history (run_session s runs))).
Proof.
  intros G E V.
  assert (Hstep : forall (w : world G E V) s inp r,
             paired (history s) -> returned (run w s inp) = inr r ->
             paired (history (final_session (run w s inp)))).
  { intros w s inp r Hp Hr.
    assert (Hstart : paired (start_history s inp)).
    { unfold start_history. destruct (reset_clicked inp); [exact I | exact Hp]. }
    destruct (run_history_cases w s inp)
      as [Hs | [(q & e & _ & _ & _ & He) | (q & a & vs & _ & _ & Hs & _)]].
    - rewrite Hs. exact Hstart.
    - rewrite He in Hr. discriminate Hr.
    - rewrite Hs. cbn [history chat_history].
      apply paired_app; [exact Hstart | exact I]. }
  split; [exact Hstep |].
  intros runs. induction runs as [| [w inp] runs IH]; intros s Hp Hall.
  - exact Hp.
  - cbn [run_session]. destruct Hall as [[r Hr] Hrest].
    apply IH; [| exact Hrest]. now apply (Hstep w s inp r).
Qed.

Lemma exchanges_kept_by_returning_executions_witness :
  let w := lab_world key_env (inr paris_text) spec_splitter echo_service in
  paired two_exchanges
  /\ all_return (Session (Some two_exchanges)) [(w, ask_paris); (w, ask_paris)]
  /\ paired (history (run_session (Session (Some two_exchanges))
                                  [(w, ask_paris); (w, ask_paris)])).
Proof.
  intros w.
  assert (Hp : paired (history (Session (Some two_exchanges)))) by exact I.
  assert (Hall : all_return (Session (Some two_exchanges))
                            [(w, ask_paris); (w, ask_paris)]).
  { cbn [all_return]. repeat split; eexists; reflexivity. }
  split; [exact I | split; [exact Hall |]].
  exact (proj2 (exchanges_kept_by_returning_executions _ _ _) _ _ Hp Hall).
Defined.

(** X3.  The history is rendered whole and in order, one bubble per turn,
    by exactly the executions that return a retriever; every other
    execution (no file, blank text, no chunks, an exception) renders no
    turn at all, whatever the history holds. *)
Theorem history_rendered_whole_or_not_at_all :
  forall (G E V : Type) (w : world G E V) s inp,
    let o := run w s inp in
    rendered (calls o)
    = match returned o with
      | inr (Some _) => history (final_session o)
      | _ => []
      end.
Proof.
  intros G E V w s inp o. subst o. enter_script.
  destruct (file_uploaded inp) as [f |]; exec; read_calls;
    cbn [history chat_history]; reflexivity.
Qed.

(** X4.  The script raises nothing of its own: in a world whose library
    calls all answer (the store may still refuse an empty list of chunks),
    every execution runs to its end. *)
Theorem script_raises_only_what_libraries_raise :
  forall (G E V : Type) (w : world G E V) s inp,
    never_raises w -> exists r, returned (run w s inp) = inr r.
Proof.
  intros G E V w s inp (Hx & Hc & Hm & He & Hs & Hb & Hd & Hg).
  enter_script.
  destruct (file_uploaded inp) as [f |]; exec; eauto;
    exfalso;
    repeat match goal with
           | H : text_extractor_pdf w ?a = inl _ |- _ =>
               destruct (Hx a) as [? Hok]; rewrite Hok in H; discriminate H
           | H : genai_configure w ?a = inl _ |- _ =>
               rewrite (Hc a) in H; discriminate H
           | H : genai_GenerativeModel w ?a = inl _ |- _ =>
               destruct (Hm a) as [? Hok]; rewrite Hok in H; discriminate H
           | H : HuggingFaceEmbeddings w ?a = inl _ |- _ =>
               destruct (He a) as [? Hok]; rewrite Hok in H; discriminate H
           | H : split_text w ?a ?b ?c = inl _ |- _ =>
               destruct (Hs a b c) as [? Hok]; rewrite Hok in H; discriminate H
           | H : FAISS_from_texts w ?a ?b = inl _ |- _ =>
               destruct (Hb a b ltac:(discriminate)) as [? Hok];
               rewrite Hok in H; discriminate H
           | H : similarity_search w ?a ?b ?c = inl _ |- _ =>
               destruct (Hd a b c) as [? Hok]; rewrite Hok in H; discriminate H
           | H : generate_content_text w ?a ?b = inl _ |- _ =>
               destruct (Hg a b) as [? Hok]; rewrite Hok in H; discriminate H
           end.
Qed.

Lemma script_raises_only_what_libraries_raise_witness :
  let w := lab_world no_env (inr paris_text) spec_splitter echo_service in
  never_raises w
  /\ exists r, returned (run w (Session None) ask_paris) = inr r.
Proof.
  intros w.
  assert (Hw : never_raises w).
  { repeat split; intros; try (eexists; reflexivity).
    destruct c as [| c0 c]; [congruence | eexists; reflexivity]. }
  split; [exact Hw |].
  exact (@script_raises_only_what_libraries_raise _ _ _ w (Session None)
           ask_paris Hw).
Defined.

(** X5.  Submitting an empty query is the same as submitting none: the
    guard of line 200 drops it, and the execution leaves the same session
    state, makes the same calls and returns the same. *)
Theorem empty_query_is_no_query :
  forall (G E V : Type) (w : world G E V) s inp,
    chat_input inp = Some [] ->
    run w s inp = run w s (without_query inp).
Proof.
  intros G E V w s inp Hq.
  unfold run, rag. rewrite !opening_lines.
  unfold start_history, without_query;
    cbn [file_uploaded chat_input reset_clicked].
  destruct (file_uploaded inp) as [f |]; exec; try reflexivity;
    match goal with H : truthy [] = true |- _ => discriminate H end.
Qed.

Lemma empty_query_is_no_query_witness :
  let w := lab_world key_env (inr paris_text) spec_splitter echo_service in
  chat_input submit_empty = Some []
  /\ run w (Session (Some three_turns)) submit_empty
     = run w (Session (Some three_turns)) upload_only.
Proof.
  intros w. split; [reflexivity |].
  exact (@empty_query_is_no_query _ _ _ w (Session (Some three_turns))
           submit_empty eq_refl).
Defined.

(** X6.  The chat history is shown and nothing more: apart from the
    bubbles that render it, the calls of an execution (the query sent to
    the retriever and the prompt sent to the generation service among them)
    and what it returns are the same whatever history the session holds. *)
Theorem earlier_turns_reach_no_library :
  forall (G E V : Type) (w : world G E V) s s' inp,
    without_bubbles (calls (run w s inp))
    = without_bubbles (calls (run w s' inp))
    /\ returned (run w s inp) = returned (run w s' inp).
Proof.
  intros G E V w s s' inp.
  unfold run, rag. rewrite !opening_lines.
  destruct (file_uploaded inp) as [f |]; exec; split; try reflexivity;
    read_calls; reflexivity.
Qed.

(** X7.  A click on Reset Chat forgets the stored history altogether: the
    execution it triggers, and with it the rest of the session, is the same
    from any session state, also when a query rides along. *)
Theorem reset_forgets_the_stored_history :
  forall (G E V : Type) (w : world G E V) s s' inp,
    reset_clicked inp = true ->
    run w s inp = run w s' inp
    /\ forall rest,
         run_session s ((w, inp) :: rest) = run_session s' ((w, inp) :: rest).
Proof.
  intros G E V w s s' inp Hreset.
  assert (Hsame : run w s inp = run w s' inp).
  { unfold run, rag. rewrite !opening_lines.
    unfold start_history. rewrite Hreset. reflexivity. }
  split; [exact Hsame |].
  intros rest. cbn [run_session]. now rewrite Hsame.
Qed.

Lemma reset_forgets_the_stored_history_witness :
  let w := lab_world key_env (inr paris_text) spec_splitter echo_service in
  reset_clicked reset_and_ask = true
  /\ run w (Session (Some three_turns)) reset_and_ask
     = run w (Session None) reset_and_ask
  /\ history (final_session (run w (Session (Some three_turns)) reset_and_ask))
     = [Turn user paris_query; Turn assistant (lit "Paris.")].
Proof.
  intros w. split; [reflexivity |].
  split; [| reflexivity].
  exact (proj1 (@reset_forgets_the_stored_history _ _ _ w
                  (Session (Some three_turns)) (Session None)
                  reset_and_ask eq_refl)).
Defined.

(** X8.  What flows between the library calls.  The splitter receives the
    extracted text as extracted, not stripped; the store is built from
    exactly the chunks the splitter returned, which are then not empty; and
    the retriever is asked the submitted query as typed, which is then not
    empty. *)
Theorem data_flows_unchanged_between_calls :
  forall (G E V : Type) (w : world G E V) s inp,
    let o := run w s inp in
    (forall size overlap text,
        In (EvSplit size overlap text) (calls o) ->
        exists f, file_uploaded inp = Some f
                  /\ text_extractor_pdf w f = inr text)
    /\ (forall chunks,
           In (EvFromTexts chunks) (calls o) ->
           chunks <> []
           /\ exists f text, file_uploaded inp = Some f
                             /\ text_extractor_pdf w f = inr text
                             /\ split_text w 300 50 text = inr chunks)
    /\ (forall k query,
           In (EvRetrieve k query) (calls o) ->
           chat_input inp = Some query /\ query <> []).
Proof.
  intros G E V w s inp o. subst o. split; [| split].
  - intros size overlap text H. revert H. enter_script.
    destruct (file_uploaded inp) as [f |]; exec; intros H; in_calls H;
      injection H as <- <- <-; eauto.
  - intros chunks H. revert H. enter_script.
    destruct (file_uploaded inp) as [f |]; exec; intros H; in_calls H;
      injection H as <-; (split; [discriminate | eauto 10]).
  - intros k query H. revert H. enter_script.
    destruct (file_uploaded inp) as [f |]; exec; intros H; in_calls H;
      injection H as <- <-; (split; [reflexivity |]);
      intros ->; discriminate.
Qed.

Lemma data_flows_unchanged_between_calls_witness :
  let w := lab_world key_env (inr (lit "  Paris  ")) spec_splitter
                     echo_service in
  let o := run w (Session None) ask_paris in
  In (EvSplit 300 50 (lit "  Paris  ")) (calls o)
  /\ In (EvFromTexts [lit "  Paris  "]) (calls o)
  /\ In (EvRetrieve 3 paris_query) (calls o)
  /\ text_extractor_pdf w a_pdf = inr (lit "  Paris  ")
  /\ chat_input ask_paris = Some paris_query.
Proof.
  intros w o.
  assert (Hs : In (EvSplit 300 50 (lit "  Paris  ")) (calls o))
    by (do 5 right; left; reflexivity).
  assert (Hb : In (EvFromTexts [lit "  Paris  "]) (calls o))
    by (do 6 right; left; reflexivity).
  assert (Hr : In (EvRetrieve 3 paris_query) (calls o))
    by (do 8 right; left; reflexivity).
  destruct (data_flows_unchanged_between_calls w (Session None) ask_paris)
    as (Hsplit & Hbuild & Hask).
  destruct (Hsplit _ _ _ Hs) as (f & Hf & Hx).
  destruct (Hask _ _ Hr) as [Hq _].
  split; [exact Hs | split; [exact Hb | split; [exact Hr | split]]].
  - injection Hf as <-. exact Hx.
  - exact Hq.
Defined.

(** X9.  No call is repeated within an execution: the extractor, the
    store builder, the retriever and the generation service are each called
    at most once (nothing is retried), a generation call is made only after
    a retrieval, and a retrieval only after the store was built. *)
Theorem each_library_called_at_most_once :
  forall (G E V : Type) (w : world G E V) s inp,
    let c := calls (run w s inp) in
    count_calls is_extract c <= 1
    /\ count_calls is_from_texts c <= 1
    /\ count_calls is_retrieve c <= 1
    /\ count_calls is_generate c <= 1
    /\ count_calls is_generate c <= count_calls is_retrieve c
    /\ count_calls is_retrieve c <= count_calls is_from_texts c.
Proof.
  intros G E V w s inp c. subst c. enter_script.
  destruct (file_uploaded inp) as [f |]; exec; read_calls;
    repeat split; lia.
Qed.

(** X10.  When the retriever raises on a query, the execution stops with
    that exception: the user turn is already in the history, no generation
    call is made, no animation frame is shown and the history is not
    rendered. *)
Theorem retrieval_failure_stops_before_generation :
  forall (G E V : Type) (w : world G E V) s inp llm vs q e,
    indexed w inp llm vs ->
    chat_input inp = Some q -> q <> [] ->
    similarity_search w vs 3 q = inl e ->
    let o := run w s inp in
    returned o = inl e
    /\ final_session o = Session (Some (start_history s inp ++ [Turn user q]))
    /\ count_calls is_generate (calls o) = 0
    /\ typed_frames (calls o) = []
    /\ rendered (calls o) = [].
Proof.
  intros G E V w s inp llm vs q e
    (f & file_text & emb & chunks & Hf & Hx & Ht & Hc & Hm & He & Hs
     & Hne & Hb) Hq Hqne Hd o.
  subst o. destruct chunks as [| c0 chunks]; [congruence |].
  assert (Hqt : truthy q = true) by (destruct q; [congruence | reflexivity]).
  enter_script. rewrite Hf. exec.
  repeat split; read_calls; reflexivity.
Qed.

Lemma retrieval_failure_stops_before_generation_witness :
  let o := run search_down_world (Session (Some three_turns)) ask_paris in
  similarity_search search_down_world
    [(length_embed paris_text, paris_text)] 3 paris_query
    = inl (Exception "SearchFailed")
  /\ returned o = inl (Exception "SearchFailed")
  /\ history (final_session o) = three_turns ++ [Turn user paris_query]
  /\ count_calls is_generate (calls o) = 0.
Proof.
  intros o.
  assert (Hi : indexed search_down_world ask_paris gemini_model
                       [(length_embed paris_text, paris_text)]).
  { exists a_pdf, paris_text, minilm_model, [paris_text].
    repeat split; try reflexivity. discriminate. }
  destruct (@retrieval_failure_stops_before_generation
              _ _ _ search_down_world (Session (Some three_turns)) ask_paris
              gemini_model [(length_embed paris_text, paris_text)]
              paris_query (Exception "SearchFailed") Hi eq_refl
              ltac:(discriminate) eq_refl)
    as (Hr & Hs & Hg & _).
  split; [reflexivity | split; [exact Hr | split; [| exact Hg]]].
  fold o in Hs. rewrite Hs. reflexivity.
Defined.

(** ** The typing animation *)

Lemma prefixes_from_firstn (acc s : str) :
  prefixes_from acc s
  = map (fun n => acc ++ firstn n s) (seq 1 (length s)).
Proof.
  revert acc. induction s as [| c s IH]; intros acc; [reflexivity |].
  cbn [prefixes_from length]. rewrite IH.
  cbn [seq map firstn]. f_equal.
  rewrite <- (seq_shift (length s) 1), map_map. apply map_ext.
  intros n. cbn [firstn]. now rewrite <- app_assoc.
Qed.

Lemma prefixes_from_last (acc s : str) :
  s <> [] -> last (prefixes_from acc s) [] = acc ++ s.
Proof.
  revert acc. induction s as [| c s IH]; intros acc Hne; [congruence |].
  cbn [prefixes_from]. destruct s as [| c' s].
  - reflexivity.
  - change (last ((acc ++ [c]) :: prefixes_from (acc ++ [c]) (c' :: s)) [])
      with (last (prefixes_from (acc ++ [c]) (c' :: s)) []).
    rewrite IH by discriminate. now rewrite <- app_assoc.
Qed.

(** X11.  The typing animation of an answered query shows the response
    growing one character per frame: the frames are its prefixes of
    lengths 1, 2, ... up to its length, so there are as many frames as
    characters, the last one is the whole response, and an empty response
    shows no frame at all. *)
Theorem typing_animation_grows_to_the_response :
  forall (G E V : Type) (w : world G E V) s inp llm vs q docs r,
    indexed w inp llm vs -> asked w inp vs q docs ->
    generate_content_text w llm (make_prompt (make_context docs) q) = inr r ->
    let frames := typed_frames (calls (run w s inp)) in
    frames = map (fun n => firstn n r) (seq 1 (length r))
    /\ length frames = length r
    /\ (r <> [] -> last frames [] = r)
    /\ (r = [] -> frames = []).
Proof.
  intros G E V w s inp llm vs q docs r
    (f & file_text & emb & chunks & Hf & Hx & Ht & Hc & Hm & He & Hs
     & Hne & Hb) (Hq & Hqt & Hd) Hg frames.
  assert (Hframes : frames = prefixes_from [] r).
  { subst frames. destruct chunks as [| c0 chunks]; [congruence |].
    enter_script. rewrite Hf. exec. read_calls; reflexivity. }
  rewrite Hframes. split; [| split; [| split]].
  - apply prefixes_from_firstn.
  - now rewrite prefixes_from_firstn, length_map, length_seq.
  - intros Hr. now rewrite prefixes_from_last.
  - intros ->. reflexivity.
Qed.

Lemma typing_animation_grows_to_the_response_witness :
  let w := lab_world key_env (inr paris_text) spec_splitter echo_service in
  let frames := typed_frames (calls (run w (Session None) ask_paris)) in
  generate_content_text w gemini_model
    (make_prompt (make_context [paris_text]) paris_query) = inr (lit "Paris.")
  /\ length frames = 6
  /\ last frames [] = lit "Paris.".
Proof.
  intros w frames.
  destruct (@typing_animation_grows_to_the_response
              _ _ _ w (Session None) ask_paris gemini_model
              [(length_embed paris_text, paris_text)] paris_query
              [paris_text] (lit "Paris.")
              (lab_indexed key_env echo_service ask_paris eq_refl)
              (lab_asked key_env echo_service) eq_refl)
    as (_ & Hlen & Hlast & _).
  split; [reflexivity | split; [exact Hlen |]].
  apply Hlast. discriminate.
Defined.

(** ** The guard on the extracted text *)

Lemma lstrip_blank (s : str) : blank s -> lstrip s = [].
Proof.
  induction 1 as [| c s Hc _ IH]; [reflexivity |].
  cbn [lstrip]. now rewrite Hc.
Qed.

Lemma lstrip_nil_blank (s : str) : lstrip s = [] -> blank s.
Proof.
  induction s as [| c s IH]; intros H; [constructor |].
  cbn [lstrip] in H. destruct (is_space c) eqn:Hc; [| discriminate H].
  constructor; [exact Hc | now apply IH].
Qed.

Lemma lstrip_head (s : str) c t : lstrip s = c :: t -> is_space c = false.
Proof.
  induction s as [| c' s IH]; intros H; [discriminate H |].
  cbn [lstrip] in H. destruct (is_space c') eqn:Hc; [now apply IH |].
  now injection H as <- _.
Qed.

Lemma strip_nil_iff (s : str) : strip s = [] <-> blank s.
Proof.
  unfold strip, rstrip. split.
  - intros H.
    assert (Hl : lstrip (rev (lstrip s)) = []).
    { destruct (lstrip (rev (lstrip s))) as [| c t]; [reflexivity |].
      apply (f_equal (@length _)) in H. rewrite length_rev in H.
      discriminate H. }
    apply lstrip_nil_blank in Hl. unfold blank in Hl.
    apply Forall_rev in Hl. rewrite rev_involutive in Hl.
    destruct (lstrip s) as [| c t] eqn:Hs; [now apply lstrip_nil_blank |].
    apply lstrip_head in Hs. inversion Hl; congruence.
  - intros H. now rewrite (lstrip_blank H).
Qed.

(** X12.  The guard of line 182 lets a text through exactly when it holds
    a character that is not whitespace.  A text made of whitespace only is
    treated as no text: the execution stops after the extraction, returns
    without a retriever and keeps the history; the environment is not even
    read. *)
Theorem blank_text_is_no_text :
  forall (G E V : Type) (w : world G E V) s inp f file_text,
    (truthy (strip file_text) = false <-> blank file_text)
    /\ (file_uploaded inp = Some f ->
        text_extractor_pdf w f = inr file_text ->
        blank file_text ->
        let o := run w s inp in
        returned o = inr None
        /\ final_session o = Session (Some (start_history s inp))
        /\ without_bubbles (calls o)
           = (if reset_clicked inp
              then [EvSuccess (lit "Chat history cleared!")] else [])
             ++ [EvExtract f]).
Proof.
  intros G E V w s inp f file_text. split.
  - rewrite <- strip_nil_iff.
    destruct (strip file_text); cbn [truthy]; split; congruence.
  - intros Hf Hx Hblank o. subst o.
    apply strip_nil_iff in Hblank.
    enter_script. rewrite Hf, Hx. autorewrite with exec.
    rewrite Hblank. cbn [truthy]. exec.
    repeat split. read_calls; reflexivity.
Qed.

Lemma blank_text_is_no_text_witness :
  let spaces : str := [32; 10; 9; 160; 8195]%N in
  let w := lab_world key_env (inr spaces) spec_splitter echo_service in
  blank spaces
  /\ returned (run w (Session (Some three_turns)) ask_paris) = inr None
  /\ final_session (run w (Session (Some three_turns)) ask_paris)
     = Session (Some three_turns).
Proof.
  intros spaces w.
  assert (Hb : blank spaces) by (repeat constructor).
  destruct (proj2 (@blank_text_is_no_text _ _ _ w (Session (Some three_turns))
                     ask_paris a_pdf spaces) eq_refl eq_refl Hb)
    as (Hr & Hs & _).
  split; [exact Hb | split; [exact Hr | exact Hs]].
Defined.

(** X13.  The chat input is offered by exactly the executions that built
    their index: those with an uploaded file whose text is not blank, whose
    library calls answered and whose chunks are not empty. *)
Theorem chat_input_offered_iff_indexed :
  forall (G E V : Type) (w : world G E V) s inp,
    In EvChatInput (calls (run w s inp))
    <-> exists llm vs, indexed w inp llm vs.
Proof.
  intros G E V w s inp. split.
  - enter_script.
    destruct (file_uploaded inp) as [f |] eqn:Hf; exec; intros H; in_calls H;
      repeat match goal with u : unit |- _ => destruct u end;
      (eexists _, _; unfold indexed; eexists _, _, _, _;
       repeat split; try eassumption; try reflexivity; discriminate).
  - intros (llm & vs & f & file_text & emb & chunks & Hf & Hx & Ht & Hc
            & Hm & He & Hs & Hne & Hb).
    destruct chunks as [| c0 chunks]; [congruence |].
    enter_script. rewrite Hf.
    exec; rewrite ?in_app_iff; cbn [In]; tauto.
Qed.

Lemma chat_input_offered_iff_indexed_witness :
  let w := lab_world key_env (inr paris_text) spec_splitter down_service in
  (exists llm vs, indexed w ask_paris llm vs)
  /\ In EvChatInput (calls (run w (Session None) ask_paris)).
Proof.
  intros w.
  assert (Hi : exists llm vs, indexed w ask_paris llm vs).
  { eexists _, _. apply lab_indexed. reflexivity. }
  split; [exact Hi |].
  exact (proj2 (chat_input_offered_iff_indexed w (Session None) ask_paris) Hi).
Defined.

(** X14.  Whatever an execution does, and however it ends, it leaves the
    key "chat_history" bound in the session state, so the history accesses
    of lines 201, 250 and 254 never find it missing. *)
Theorem chat_history_always_bound :
  forall (G E V : Type) (w : world G E V) s inp,
    exists h, chat_history (final_session (run w s inp)) = Some h.
Proof.
  intros G E V w s inp. enter_script.
  destruct (file_uploaded inp) as [f |]; exec; eexists; reflexivity.
Qed.


(** ** A text that fits in one chunk, in the library's splitter *)

Lemma join_empty_separator (l : list str) : join [] l = concat l.
Proof.
  induction l as [| p l IH]; [reflexivity |].
  destruct l as [| q l].
  - cbn [join concat]. now rewrite app_nil_r.
  - rewrite join_cons, IH. reflexivity.
Qed.

Lemma join_docs_one_chunk (docs : list str) :
  append_doc [] (_join_docs docs []) = one_stripped_chunk (concat docs).
Proof.
  unfold _join_docs, one_stripped_chunk. rewrite join_empty_separator.
  destruct (strip (concat docs)); reflexivity.
Qed.

Lemma concat_nonempty_nil (l : list str) :
  Forall (fun s => s <> []) l -> length (concat l) = 0 -> l = [].
Proof.
  intros Hne Hlen. destruct l as [| s l]; [reflexivity |].
  inversion Hne as [| ? ? Hs _]; subst.
  cbn [concat] in Hlen. rewrite length_app in Hlen.
  destruct s; [congruence | cbn [length] in Hlen; lia].
Qed.

Lemma re_split_rebuilds (sep : str) (text : str) :
  sep <> [] ->
  forall k cur,
    exists first others,
      re_split sep k cur text = first :: others
      /\ concat (first :: pair_up others) = cur ++ skipn k text.
Proof.
  intros Hsep. induction text as [| c rest IH]; intros k cur.
  - exists cur, []. split; [reflexivity |]. now destruct k.
  - destruct k as [| k]; cbn [re_split].
    + destruct (starts_with sep (c :: rest)) eqn:Hs.
      * destruct (IH (length sep - 1) []) as (f1 & o1 & -> & Hc).
        exists cur, (sep :: f1 :: o1). split; [reflexivity |].
        cbn [pair_up concat] in *. rewrite <- app_assoc, Hc.
        cbn [app skipn]. f_equal.
        unfold starts_with, str_eqb in Hs.
        destruct (list_eq_dec N.eq_dec (firstn (length sep) (c :: rest)) sep)
          as [He |]; [| discriminate Hs].
        rewrite <- (firstn_skipn (length sep) (c :: rest)) at 1.
        rewrite He. f_equal.
        destruct sep as [| s0 sep]; [congruence |].
        cbn [length skipn].
        now replace (S (length sep) - 1) with (length sep) by lia.
      * destruct (IH 0 (cur ++ [c])) as (f1 & o1 & -> & Hc).
        exists f1, o1. split; [reflexivity |].
        rewrite Hc. cbn [skipn]. now rewrite <- app_assoc.
    + destruct (IH k cur) as (f1 & o1 & -> & Hc).
      exists f1, o1. split; [reflexivity | exact Hc].
Qed.

Lemma filter_nonempty_concat (l : list str) :
  concat (filter (fun s => negb (str_eqb s [])) l) = concat l.
Proof.
  induction l as [| s l IH]; [reflexivity |].
  cbn [filter]. destruct (str_eqb s []) eqn:Heq; cbn [negb].
  - unfold str_eqb in Heq.
    match type of Heq with
    | (if ?d then _ else _) = _ => destruct d as [-> |]; [| discriminate Heq]
    end.
    exact IH.
  - cbn [concat]. now rewrite IH.
Qed.

Lemma filter_nonempty_all (l : list str) :
  Forall (fun s => s <> []) (filter (fun s => negb (str_eqb s [])) l).
Proof.
  apply Forall_forall. intros s Hs. apply filter_In in Hs as [_ Hs].
  unfold str_eqb in Hs.
  match type of Hs with
  | negb (if ?d then _ else _) = _ =>
      destruct d as [-> | Hne]; [discriminate Hs | exact Hne]
  end.
Qed.

(** The pieces of a text, put together again, are the text. *)
Lemma split_pieces_rebuild (text separator : str) :
  concat (_split_text_with_regex text separator) = text
  /\ Forall (fun s => s <> []) (_split_text_with_regex text separator).
Proof.
  unfold _split_text_with_regex. split; [| apply filter_nonempty_all].
  rewrite filter_nonempty_concat. destruct separator as [| s0 separator].
  - induction text as [| c text IH]; [reflexivity |].
    cbn [map concat app]. now rewrite IH.
  - destruct (@re_split_rebuilds (s0 :: separator) text
                ltac:(discriminate) 0 [])
      as (first & others & -> & Hc).
    exact Hc.
Qed.

Lemma split_characters (text : str) :
  Forall (fun s => length s = 1) (_split_text_with_regex text []).
Proof.
  unfold _split_text_with_regex. apply Forall_forall. intros s Hs.
  apply filter_In in Hs as [Hs _].
  apply in_map_iff in Hs as (c & <- & _). reflexivity.
Qed.

Section OneChunk.

Variables chunk_size chunk_overlap : nat.

(** Pieces that fit together in one chunk are merged into one document. *)
Lemma merge_loop_fits (splits docs current_doc : list str) (total : Z) :
  total = len (concat current_doc) ->
  length (concat (current_doc ++ splits)) <= chunk_size ->
  merge_loop chunk_size chunk_overlap [] splits docs current_doc total
  = inr (append_doc docs (_join_docs (current_doc ++ splits) [])).
Proof.
  revert current_doc total.
  induction splits as [| d rest IH]; intros current_doc total Ht Hfit.
  - cbn [merge_loop]. now rewrite app_nil_r.
  - cbn [merge_loop].
    assert (Hlen : (total + len d <= Z.of_nat chunk_size)%Z).
    { subst total. unfold len. rewrite concat_app, length_app in Hfit.
      cbn [concat] in Hfit. rewrite length_app in Hfit. lia. }
    replace (len (@nil char)) with 0%Z by reflexivity.
    assert (Hz : forall b : bool, (if b then 0 else 0)%Z = 0%Z)
      by (intros []; reflexivity).
    rewrite !Hz, !Z.add_0_r.
    destruct (Z.gtb_spec (total + len d) (Z.of_nat chunk_size)) as [Hgt |];
      [lia |].
    rewrite IH.
    + now rewrite <- app_assoc.
    + subst total. unfold len. rewrite concat_app, length_app.
      cbn [concat]. rewrite app_nil_r. lia.
    + now rewrite <- app_assoc.
Qed.

Lemma flush_fits (good : list str) :
  length (concat good) <= chunk_size ->
  flush chunk_size chunk_overlap [] good
  = inr (one_stripped_chunk (concat good)).
Proof.
  intros Hfit. unfold flush, _merge_splits. destruct good as [| g good].
  - reflexivity.
  - rewrite merge_loop_fits; [| reflexivity | exact Hfit].
    cbn [app]. now rewrite join_docs_one_chunk.
Qed.

(** The second loop of [_split_text] on the pieces of a text that fits. *)
Lemma each_split_fits (recurse : str -> result (list str))
    (new_separators splits good : list str) :
  Forall (fun s => s <> []) splits -> Forall (fun s => s <> []) good ->
  length (concat (good ++ splits)) <= chunk_size ->
  (new_separators = [] -> Forall (fun s => length s < chunk_size) splits) ->
  (new_separators <> [] ->
   forall s, length s <= chunk_size -> recurse s = inr (one_stripped_chunk s)) ->
  each_split chunk_size chunk_overlap recurse new_separators splits [] good
  = inr (one_stripped_chunk (concat (good ++ splits))).
Proof.
  intros Hsplits. revert good.
  induction Hsplits as [| s rest Hs Hrest IH];
    intros good Hgood Hfit Hlast Hrec.
  - cbn [each_split]. rewrite app_nil_r in *. now apply flush_fits.
  - cbn [each_split]. unfold len.
    destruct (Z.ltb_spec (Z.of_nat (length s)) (Z.of_nat chunk_size))
      as [Hlt | Hge].
    + rewrite IH.
      * now rewrite <- app_assoc.
      * apply Forall_app. split; [exact Hgood | now constructor].
      * now rewrite <- app_assoc.
      * intros Hnil. specialize (Hlast Hnil).
        now inversion Hlast.
      * exact Hrec.
    + rewrite concat_app, length_app in Hfit. cbn [concat] in Hfit.
      rewrite length_app in Hfit.
      assert (Hg : good = []) by (apply concat_nonempty_nil; [exact Hgood | lia]).
      assert (Hr : rest = []) by (apply concat_nonempty_nil; [exact Hrest | lia]).
      subst good rest. cbn [flush app concat]. rewrite app_nil_r.
      destruct new_separators as [| n0 new_separators].
      * specialize (Hlast eq_refl). inversion Hlast; subst. lia.
      * rewrite Hrec; [| discriminate | lia]. reflexivity.
Qed.

Lemma choose_separator_cases (separators : list str) (text last : str) :
  In [] separators ->
  let '(separator, new_separators) :=
    choose_separator separators text last in
  (separator = [] /\ new_separators = [])
  \/ (separator <> [] /\ In [] new_separators
      /\ length new_separators < length separators).
Proof.
  induction separators as [| _s rest IH]; intros Hin; [destruct Hin |].
  cbn [choose_separator].
  destruct (str_eqb _s []) eqn:Hemp; [now left |].
  assert (Hne : _s <> []).
  { intros ->. unfold str_eqb in Hemp.
    match type of Hemp with
    | (if ?d then _ else _) = _ => destruct d; [discriminate Hemp | congruence]
    end. }
  destruct Hin as [Heq | Hin]; [congruence |].
  destruct (contains _s text).
  - right. cbn [length]. auto with arith.
  - specialize (IH Hin).
    destruct (choose_separator rest text last) as [separator new_separators].
    destruct IH as [? | (? & ? & ?)]; [now left | right].
    cbn [length]. auto with arith.
Qed.

(** [_split_text] on a text that fits in one chunk. *)
Lemma split_text_fits (depth : nat) :
  2 <= chunk_size ->
  forall (separators : list str) (text : str),
    In [] separators -> length separators < depth ->
    length text <= chunk_size ->
    _split_text chunk_size chunk_overlap depth text separators
    = inr (one_stripped_chunk text).
Proof.
  intros Hsize. induction depth as [| depth IH];
    intros separators text Hin Hdepth Hfit; [lia |].
  cbn [_split_text].
  pose proof (choose_separator_cases separators text (last separators []) Hin)
    as Hcases.
  destruct (choose_separator separators text (last separators []))
    as [separator new_separators].
  destruct (split_pieces_rebuild text separator) as [Hconcat Hnonempty].
  rewrite each_split_fits.
  - cbn [app]. now rewrite Hconcat.
  - exact Hnonempty.
  - constructor.
  - cbn [app]. now rewrite Hconcat.
  - intros ->. destruct Hcases as [[-> _] | (_ & [] & _)].
    eapply Forall_impl; [| apply split_characters].
    intros s Hs. cbn beta in Hs. lia.
  - intros Hne s Hs.
    destruct Hcases as [[_ ->] | (_ & Hin' & Hlen)]; [congruence |].
    apply IH; [exact Hin' | lia | exact Hs].
Qed.

End OneChunk.

(** C6 (amended).  Of a text no longer than [max_size] (which is at least
    2, with an overlap no larger) the splitter returns the text with its
    leading and trailing whitespace stripped, as exactly one chunk, and no
    chunk when nothing is left; so a text that neither starts nor ends with
    whitespace comes back as one chunk equal to it, and an empty or blank
    text yields an empty sequence. *)
Theorem short_text_is_one_stripped_chunk :
  forall (T : str) (max_size overlap : nat),
    2 <= max_size -> overlap <= max_size -> length T <= max_size ->
    RecursiveCharacterTextSplitter_split_text max_size overlap T
    = inr (match strip T with [] => [] | t => [t] end)
    /\ (T <> [] -> strip T = T ->
        RecursiveCharacterTextSplitter_split_text max_size overlap T
        = inr [T])
    /\ (blank T ->
        RecursiveCharacterTextSplitter_split_text max_size overlap T
        = inr []).
Proof.
  intros T max_size overlap Hsize Hover Hfit.
  assert (Hmain : RecursiveCharacterTextSplitter_split_text max_size overlap T
                  = inr (one_stripped_chunk T)).
  { unfold RecursiveCharacterTextSplitter_split_text.
    destruct (Nat.ltb_spec max_size overlap) as [Hlt |]; [lia |].
    apply split_text_fits; try assumption.
    - cbn. auto.
    - cbn [default_separators length]. lia. }
  rewrite Hmain. unfold one_stripped_chunk. split; [reflexivity | split].
  - intros Hne Hstrip. rewrite Hstrip.
    destruct T; [congruence | reflexivity].
  - intros Hblank. apply strip_nil_iff in Hblank. now rewrite Hblank.
Qed.

Lemma short_text_is_one_stripped_chunk_witness :
  2 <= 300 /\ 50 <= 300 /\ length paris_text <= 300
  /\ strip paris_text = paris_text
  /\ RecursiveCharacterTextSplitter_split_text 300 50 paris_text
     = inr [paris_text].
Proof.
  assert (H1 : 2 <= 300) by lia.
  assert (H2 : 50 <= 300) by lia.
  assert (H3 : length paris_text <= 300) by (cbv; lia).
  assert (H4 : strip paris_text = paris_text) by reflexivity.
  repeat (split; [assumption |]).
  apply (proj1 (proj2 (short_text_is_one_stripped_chunk paris_text
                         H1 H2 H3))); [discriminate | exact H4].
Defined.

(** C6 as stated fails: a text of seven characters, which the guard of
    line 182 lets through, is no longer than 300 and comes back as one
    chunk that is not equal to it, its blanks gone. *)
Lemma padded_text_is_not_returned_as_is :
  let T := lit " Paris " in
  length T <= 300
  /\ truthy (strip T) = true
  /\ RecursiveCharacterTextSplitter_split_text 300 50 T = inr [lit "Paris"]
  /\ RecursiveCharacterTextSplitter_split_text 300 50 T <> inr [T].
Proof.
  intros T. split; [cbv; lia | split; [reflexivity | split]].
  - reflexivity.
  - discriminate.
Qed.
